(** * Akima spline interpolator: a shallow embedding and its verification

    The development follows the three source files of the repository:
    the exceptions module, the utilities ([binarySearch], [checkOrder]) and the
    class [SplineInterpolatorAkima].  Numbers are kept abstract behind the
    interface [Number], which lists the operations the JavaScript code applies
    to them; the interface is instantiated with IEEE-754 binary64 floats (what
    a JavaScript engine computes) and with the rationals (exact arithmetic). *)

From Stdlib Require Import String ZArith QArith Qabs Floats Lia Lqa Bool List.
Import ListNotations.

(** ** Exceptions and the result of a call *)

Module Exceptions.

(** The classes exported by [exceptions.js], by name. *)
Definition exports : list string :=
  [ "NullArgumentException"; "DimensionMismatchException";
    "NumberIsTooSmallException"; "OutOfRangeException";
    "MathInternalError" ]%string.

(** What a [throw] can carry: an instance of a class of [exceptions.js],
    the runtime's [TypeError], or a plain [Error]. *)
Inductive exception : Type :=
| Exception (cls : string)
| TypeError
| Error.

(** [throw new E.cls(...)]: the namespace object [E] has a property for each
    export and [undefined] for any other name, and [new undefined(...)]
    raises a [TypeError]. *)
Definition E_new (cls : string) : exception :=
  if in_dec string_dec cls exports then Exception cls else TypeError.

End Exceptions.
Export Exceptions.

Inductive result (A : Type) : Type :=
| Ok (a : A)
| Throw (e : exception).
Arguments Ok {A} a.
Arguments Throw {A} e.

Definition bind {A B : Type} (r : result A) (k : A -> result B) : result B :=
  match r with
  | Ok a => k a
  | Throw e => Throw e
  end.

Notation "x <- r ;; k" := (bind r (fun x => k))
  (at level 61, r at next level, right associativity).

Definition returns {A : Type} (r : result A) : bool :=
  match r with Ok _ => true | Throw _ => false end.

(** ** Numbers *)

(** The operations of JavaScript numbers that the library uses.  [NaN] is
    also what [undefined] (a hole of an array, an index past its end) becomes
    in arithmetic and comparisons. *)
Class Number (num : Type) : Type := {
  of_Z : Z -> num;
  add : num -> num -> num;
  sub : num -> num -> num;
  mul : num -> num -> num;
  div : num -> num -> num;
  abs : num -> num;
  ltb : num -> num -> bool;
  leb : num -> num -> bool;
  eqb : num -> num -> bool;
  EPSILON : num;
  NaN : num
}.

Declare Scope num_scope.
Delimit Scope num_scope with num.
Infix "+" := add : num_scope.
Infix "-" := sub : num_scope.
Infix "*" := mul : num_scope.
Infix "/" := div : num_scope.
Infix "<" := ltb : num_scope.
Infix "<=" := leb : num_scope.
Infix "==" := eqb : num_scope.
Notation "a > b" := (ltb b a) : num_scope.
Notation "a >= b" := (leb b a) : num_scope.

(** ** Arrays and loops *)

Section Arrays.
Context {A : Type} (hole : A).

(** [a[i]]: reading a hole or past the end yields [undefined]. *)
Definition get (a : list A) (i : nat) : A := nth i a hole.

(** [a[i] = v]: in range the element is replaced; past the end the array
    grows, the gap being holes. *)
Definition set (a : list A) (i : nat) (v : A) : list A :=
  if (i <? length a)%nat
  then firstn i a ++ v :: skipn (S i) a
  else a ++ repeat hole (i - length a) ++ [v].

(** [new Array(n)]. *)
Definition new_Array (n : nat) : list A := repeat hole n.
End Arrays.

(** [for (var i = lo; i < hi; i++) s = body(i, s)]. *)
Definition for_loop {State : Type} (lo hi : nat) (body : nat -> State -> State)
    (s : State) : State :=
  fold_left (fun s i => body i s) (seq lo (hi - lo)) s.

(** [a[i]] on an array of numbers. *)
Notation "a .[ i ]" := (get NaN a i)
  (at level 1, left associativity, format "a .[ i ]") : num_scope.

(** ** util.js *)

Module OrderDirection.
Definition INCREASING : Z := 0.
Definition DECREASING : Z := 1.
End OrderDirection.

Section Program.
Context {num : Type} {N : Number num}.
Local Open Scope num_scope.

(** The [while (low <= high)] loop of [binarySearch].  Every iteration
    shrinks the interval, so [fuel] iterations suffice when [fuel] is at
    least the interval's size; with none left the model returns what the
    loop returns at its exit.  [>>>] works on 32-bit unsigned integers. *)
Fixpoint binarySearch_loop (fuel : nat) (a : list num) (key : num)
    (low high : Z) : result Z :=
  match fuel with
  | O => Ok (- (low + 1))%Z
  | S fuel' =>
    if (low <=? high)%Z then
      let mid := Z.shiftr ((low + high) mod 2 ^ 32) 1 in
      let midVal := a.[Z.to_nat mid] in
      if midVal < key then binarySearch_loop fuel' a key (mid + 1)%Z high
      else if midVal > key then binarySearch_loop fuel' a key low (mid - 1)%Z
      else if midVal == key then Ok mid
      else Throw Error
    else Ok (- (low + 1))%Z
  end.

Definition binarySearch (a : list num) (key : num) : result Z :=
  binarySearch_loop (length a) a key 0 (Z.of_nat (length a) - 1).

(** The body of [checkOrder]'s loop from [index] on, [rest] being the
    elements at [index], [index+1], ...; the result is the value of [index]
    when the loop is left. *)
Fixpoint checkOrder_loop (dir : Z) (strict : bool) (previous : num)
    (rest : list num) (index : nat) : result nat :=
  match rest with
  | [] => Ok index
  | v :: rest' =>
    if (dir =? OrderDirection.INCREASING)%Z then
      if (if strict then v <= previous else v < previous)
      then Ok index
      else checkOrder_loop dir strict v rest' (S index)
    else if (dir =? OrderDirection.DECREASING)%Z then
      if (if strict then v >= previous else v > previous)
      then Ok index
      else checkOrder_loop dir strict v rest' (S index)
    else Throw (E_new "MathInternalError")
  end.

(** [checkOrder(val, dir, strict, abort)].  An omitted [dir] is [None]; an
    omitted flag is [undefined], which a condition reads as [false]. *)
Definition checkOrder (val : list num) (dir : option Z) (strict abort : bool)
    : result bool :=
  let dir := match dir with
             | None | Some 0%Z => OrderDirection.INCREASING
             | Some d => d
             end in
  let previous := val.[0] in
  let max := length val in
  index <- checkOrder_loop dir strict previous (tl val) 1 ;;
  if (index =? max)%nat then Ok true
  else if abort then Throw (E_new "NonMonotonicSequenceException")
  else Ok false.

(** ** The interpolator class *)

Definition MINIMUM_NUMBER_POINTS : nat := 5.

(** Horner's scheme; [c] holds the coefficients in ascending order. *)
Definition evaluatePolynomial (c : list num) (x : num) : num :=
  match rev c with
  | [] => of_Z 0
  | v :: cs => fold_left (fun v ci => x * v + ci) cs v
  end.

(** The table of segment coefficients: an array whose elements are arrays
    of numbers ([None] for a hole). *)
Definition table : Type := list (option (list num)).

Definition evaluatePolynomialSegment (xVals : list num) (segmentCoeffs : table)
    (x : num) : result num :=
  i <- binarySearch xVals x ;;
  let i := if (i <? 0)%Z then (- i - 2)%Z else i in
  let i := Z.max 0 (Z.min i (Z.of_nat (length segmentCoeffs) - 1)) in
  match get None segmentCoeffs (Z.to_nat i) with
  | Some c => Ok (evaluatePolynomial c (x - xVals.[Z.to_nat i]))
  | None => Throw TypeError
  end.

Definition differentiateThreePoint (xvals yvals : list num)
    (indexOfDifferentiation indexOfFirstSample indexOfSecondsample
     indexOfThirdSample : nat) : num :=
  let x0 := yvals.[indexOfFirstSample] in
  let x1 := yvals.[indexOfSecondsample] in
  let x2 := yvals.[indexOfThirdSample] in
  let t := xvals.[indexOfDifferentiation] - xvals.[indexOfFirstSample] in
  let t1 := xvals.[indexOfSecondsample] - xvals.[indexOfFirstSample] in
  let t2 := xvals.[indexOfThirdSample] - xvals.[indexOfFirstSample] in
  let a := (x2 - x0 - (t2 / t1 * (x1 - x0))) / (t2 * t2 - t1 * t2) in
  let b := (x1 - x0 - a * t1 * t1) / t1 in
  (of_Z 2 * a * t) + b.

(** One iteration of the loop of [interpolateHermiteSorted]; the state is
    the scratch array [coefficients] and [allCoefficients]. *)
Definition hermite_body (xvals yvals firstDerivatives : list num) (i : nat)
    (s : list num * table) : list num * table :=
  let '(coefficients, allCoefficients) := s in
  let w := xvals.[i + 1] - xvals.[i] in
  let w2 := w * w in
  let yv := yvals.[i] in
  let yvP := yvals.[i + 1] in
  let fd := firstDerivatives.[i] in
  let fdP := firstDerivatives.[i + 1] in
  let coefficients := set NaN coefficients 0 yv in
  let coefficients := set NaN coefficients 1 firstDerivatives.[i] in
  let coefficients :=
    set NaN coefficients 2 ((of_Z 3 * (yvP - yv) / w - of_Z 2 * fd - fdP) / w) in
  let coefficients :=
    set NaN coefficients 3 ((of_Z 2 * (yv - yvP) / w + fd + fdP) / w2) in
  (coefficients, set None allCoefficients i (Some coefficients)).

Definition interpolateHermiteSorted (xvals yvals firstDerivatives : list num)
    : result table :=
  if negb (length xvals =? length yvals)%nat
  then Throw (E_new "DimensionMismatchException")
  else if negb (length xvals =? length firstDerivatives)%nat
  then Throw (E_new "DimensionMismatchException")
  else
    let minimumLength := 2%nat in
    if (length xvals <? minimumLength)%nat
    then Throw (E_new "NumberIsTooSmallException")
    else
      let size := (length xvals - 1)%nat in
      let coefficients := [] in
      let allCoefficients := new_Array None size in
      Ok (snd (for_loop 0 size (hermite_body xvals yvals firstDerivatives)
                 (coefficients, allCoefficients))).

Definition differences_body (xvals yvals : list num) (i : nat)
    (differences : list num) : list num :=
  set NaN differences i
    ((yvals.[i + 1] - yvals.[i]) / (xvals.[i + 1] - xvals.[i])).

Definition weights_body (differences : list num) (i : nat)
    (weights : list num) : list num :=
  set NaN weights i (abs (differences.[i] - differences.[i - 1])).

Definition derivatives_body (xvals differences weights : list num) (i : nat)
    (firstDerivatives : list num) : list num :=
  let wP := weights.[i + 1] in
  let wM := weights.[i - 1] in
  if (abs wP < EPSILON) && (abs wM < EPSILON) then
    let xv := xvals.[i] in
    let xvP := xvals.[i + 1] in
    let xvM := xvals.[i - 1] in
    set NaN firstDerivatives i
      ((((xvP - xv) * differences.[i - 1]) + ((xv - xvM) * differences.[i]))
       / (xvP - xvM))
  else
    set NaN firstDerivatives i
      (((wP * differences.[i - 1]) + (wM * differences.[i])) / (wP + wM)).

(** The array [firstDerivatives] as [interpolate] hands it to
    [interpolateHermiteSorted]; [xvals] has at least five elements here. *)
Definition firstDerivatives_of (xvals yvals : list num) : list num :=
  let numberOfDiffAndWeightElements := (length xvals - 1)%nat in
  let differences := new_Array NaN numberOfDiffAndWeightElements in
  let weights := new_Array NaN numberOfDiffAndWeightElements in
  let differences :=
    for_loop 0 (length differences) (differences_body xvals yvals) differences in
  let weights := for_loop 1 (length weights) (weights_body differences) weights in
  let firstDerivatives := new_Array NaN (length xvals) in
  let firstDerivatives :=
    for_loop 2 (length firstDerivatives - 2)
      (derivatives_body xvals differences weights) firstDerivatives in
  let firstDerivatives :=
    set NaN firstDerivatives 0 (differentiateThreePoint xvals yvals 0 0 1 2) in
  let firstDerivatives :=
    set NaN firstDerivatives 1 (differentiateThreePoint xvals yvals 1 0 1 2) in
  let firstDerivatives :=
    set NaN firstDerivatives (length xvals - 2)
      (differentiateThreePoint xvals yvals (length xvals - 2)
         (length xvals - 3) (length xvals - 2) (length xvals - 1)) in
  set NaN firstDerivatives (length xvals - 1)
    (differentiateThreePoint xvals yvals (length xvals - 1)
       (length xvals - 3) (length xvals - 2) (length xvals - 1)).

(** [interpolate(xvals, yvals)]; [None] is [null] or [undefined].  The call
    [checkOrder(xvals)] passes no direction and no flag, and its result is
    dropped. *)
Definition interpolate (xvals yvals : option (list num)) : result table :=
  match xvals, yvals with
  | Some xvals, Some yvals =>
    if negb (length xvals =? length yvals)%nat
    then Throw (E_new "DimensionMismatchException")
    else if (length xvals <? MINIMUM_NUMBER_POINTS)%nat
    then Throw (E_new "NumberIsTooSmallException")
    else
      _ <- checkOrder xvals None false false ;;
      interpolateHermiteSorted xvals yvals (firstDerivatives_of xvals yvals)
  | _, _ => Throw (E_new "NullArgumentException")
  end.

(** [createInterpolator(xVals, yVals)] on array values: the fitted function
    closes over a copy of the knots and over the table. *)
Definition createInterpolator (xVals yVals : option (list num))
    : result (num -> result num) :=
  segmentCoeffs <- interpolate xVals yVals ;;
  match xVals with
  | Some xVals =>
    let xValsCopy := xVals in
    Ok (fun x => evaluatePolynomialSegment xValsCopy segmentCoeffs x)
  | None => Throw TypeError
  end.

End Program.

(** ** The two instances *)

Definition float_of_Z (z : Z) : float :=
  match z with
  | Z0 => 0%float
  | Zpos _ => PrimFloat.of_uint63 (Uint63.of_Z z)
  | Zneg _ => PrimFloat.opp (PrimFloat.of_uint63 (Uint63.of_Z (- z)))
  end.

(** JavaScript's numbers: IEEE-754 binary64, rounding to nearest even. *)
#[export] Instance Number_float : Number float := {
  of_Z := float_of_Z;
  add := PrimFloat.add;
  sub := PrimFloat.sub;
  mul := PrimFloat.mul;
  div := PrimFloat.div;
  abs := PrimFloat.abs;
  ltb := PrimFloat.ltb;
  leb := PrimFloat.leb;
  eqb := PrimFloat.eqb;
  EPSILON := 0x1p-52%float;
  NaN := PrimFloat.nan
}.

(** Exact arithmetic.  The rationals have no [NaN] and no infinity: a read
    past the end of an array yields [0] and so does a division by [0].  The
    properties stated over [Q] carry the hypotheses (lengths, distinct knots)
    under which the program makes no such read and no such division. *)
#[export] Instance Number_Q : Number Q := {
  of_Z := inject_Z;
  add := Qplus;
  sub := Qminus;
  mul := Qmult;
  div := Qdiv;
  abs := Qabs;
  ltb := fun a b => negb (Qle_bool b a);
  leb := Qle_bool;
  eqb := Qeq_bool;
  EPSILON := 1 / inject_Z (2 ^ 52);
  NaN := 0%Q
}.

(** ** The heap: arrays as objects

    [createInterpolator] receives references to the caller's arrays, and the
    function it returns reads the arrays its closure refers to each time it is
    called.  Objects live in a heap; a location is an index into it and
    allocation appends. *)

Module Heap.
Section Heap.
Context {num : Type} {N : Number num}.

Definition loc : Type := nat.

(** An array of numbers, or an array whose elements are references. *)
Inductive object : Type :=
| Numbers (a : list num)
| Rows (a : list (option loc)).

Definition heap : Type := list object.

Definition alloc (h : heap) (o : object) : loc * heap :=
  (length h, h ++ [o]).

Definition read_numbers (h : heap) (l : loc) : option (list num) :=
  match nth_error h l with
  | Some (Numbers a) => Some a
  | _ => None
  end.

Definition read_rows (h : heap) (l : loc) : option (list (option loc)) :=
  match nth_error h l with
  | Some (Rows a) => Some a
  | _ => None
  end.

(** Any mutation of the object at [l] (an assignment to an element, a
    [push], ...): its contents become [o]. *)
Definition store (h : heap) (m : loc * object) : heap :=
  let '(l, o) := m in
  if (l <? length h)%nat then firstn l h ++ o :: skipn (S l) h else h.

(** The value of an argument: [None] for [null] or [undefined]. *)
Definition deref (h : heap) (r : option loc) : option (list num) :=
  match r with
  | Some l => read_numbers h l
  | None => None
  end.

(** The table as objects: one array per segment ([coefficients.slice(0)])
    and the array [allCoefficients] of references to them.  The rows are
    allocated first, so that the array can be allocated with its elements
    set. *)
Fixpoint alloc_rows (h : heap) (t : table) : list (option loc) * heap :=
  match t with
  | [] => ([], h)
  | Some c :: t' =>
    let '(l, h1) := alloc h (Numbers c) in
    let '(ls, h2) := alloc_rows h1 t' in
    (Some l :: ls, h2)
  | None :: t' =>
    let '(ls, h2) := alloc_rows h t' in
    (None :: ls, h2)
  end.

Definition interpolate (h : heap) (xvals yvals : option loc)
    : result (loc * heap) :=
  t <- interpolate (deref h xvals) (deref h yvals) ;;
  let '(ls, h1) := alloc_rows h t in
  Ok (alloc h1 (Rows ls)).

(** The function [createInterpolator] returns: its free variables. *)
Record closure : Type := {
  xValsCopy : loc;
  segmentCoeffs : loc
}.

Definition createInterpolator (h : heap) (xVals yVals : option loc)
    : result (closure * heap) :=
  r <- interpolate h xVals yVals ;;
  let '(segmentCoeffs, h1) := r in
  match deref h1 xVals with
  | Some a =>
    let '(xValsCopy, h2) := alloc h1 (Numbers a) in
    Ok ({| xValsCopy := xValsCopy; segmentCoeffs := segmentCoeffs |}, h2)
  | None => Throw TypeError
  end.

(** The table that [l] refers to, as the heap has it now. *)
Definition load_table (h : heap) (l : loc) : option table :=
  match read_rows h l with
  | Some ls =>
    Some (map (fun r => match r with
                        | Some l' => read_numbers h l'
                        | None => None
                        end) ls)
  | None => None
  end.

(** A call [f(x)] of the fitted function in heap [h]. *)
Definition call (h : heap) (f : closure) (x : num) : result num :=
  match read_numbers h (xValsCopy f), load_table h (segmentCoeffs f) with
  | Some xVals, Some t => evaluatePolynomialSegment xVals t x
  | _, _ => Throw TypeError
  end.

(** For comparison: a function that would keep the caller's array. *)
Definition call_aliasing (h : heap) (xVals : loc) (f : closure) (x : num)
    : result num :=
  call h {| xValsCopy := xVals; segmentCoeffs := segmentCoeffs f |} x.

(** The heaps [h1] and [h2] hold the same objects from location [n] on. *)
Definition agree_from (n : nat) (h1 h2 : heap) : Prop :=
  forall l, (n <= l)%nat -> nth_error h1 l = nth_error h2 l.

(** Every reference of [ls] is to a location from [n] on. *)
Definition refs_from (n : nat) (ls : list (option loc)) : Prop :=
  Forall (fun r => match r with Some l => (n <= l)%nat | None => True end) ls.

(** The variables of the closure, and the rows of its table, are at
    locations from [n] on. *)
Definition private_from (n : nat) (h : heap) (f : closure) : Prop :=
  (n <= xValsCopy f)%nat /\ (n <= segmentCoeffs f)%nat /\
  forall ls, read_rows h (segmentCoeffs f) = Some ls -> refs_from n ls.

End Heap.
Arguments object num : clear implicits.
Arguments heap num : clear implicits.
End Heap.

(** ** Notions the properties are stated with *)

Section Notions.
Context {num : Type} {N : Number num}.
Local Open Scope num_scope.

(** [x] is a number: [NaN] is the one value that differs from itself. *)
Definition is_number (x : num) : Prop := (x == x) = true.

(** Adjacent knots increase strictly. *)
Definition strictly_increasing (xs : list num) : Prop :=
  forall i, (i + 1 < length xs)%nat -> (xs.[i] < xs.[i + 1]) = true.

(** The secant slopes and the Akima weights. *)
Definition diff (xs ys : list num) (j : nat) : num :=
  (ys.[j + 1] - ys.[j]) / (xs.[j + 1] - xs.[j]).

Definition weight (xs ys : list num) (j : nat) : num :=
  abs (diff xs ys j - diff xs ys (j - 1)).

(** The derivative at an interior knot [i]: the weighted average of the
    two adjacent slopes, or their blend by distance on a flat stretch. *)
Definition interior_derivative (xs ys : list num) (i : nat) : num :=
  let wP := weight xs ys (i + 1) in
  let wM := weight xs ys (i - 1) in
  if (abs wP < EPSILON) && (abs wM < EPSILON)
  then ((xs.[i + 1] - xs.[i]) * diff xs ys (i - 1)
        + (xs.[i] - xs.[i - 1]) * diff xs ys i) / (xs.[i + 1] - xs.[i - 1])
  else (wP * diff xs ys (i - 1) + wM * diff xs ys i) / (wP + wM).

(** The four coefficients of segment [i]. *)
Definition segment (xs ys fd : list num) (i : nat) : list num :=
  let w := xs.[i + 1] - xs.[i] in
  [ ys.[i]; fd.[i];
    (of_Z 3 * (ys.[i + 1] - ys.[i]) / w - of_Z 2 * fd.[i] - fd.[i + 1]) / w;
    (of_Z 2 * (ys.[i] - ys.[i + 1]) / w + fd.[i] + fd.[i + 1]) / (w * w) ].

(** Horner's scheme on four coefficients. *)
Definition horner (c0 c1 c2 c3 t : num) : num :=
  ((c3 * t + c2) * t + c1) * t + c0.

(** The coefficients of the derivative of a cubic. *)
Definition derivative (c : list num) : list num :=
  [ c.[1]; of_Z 2 * c.[2]; of_Z 3 * c.[3] ].

(** The value and the slope at [x] of the polynomial [c] of the segment
    that starts at the knot [xi]. *)
Definition segment_value (c : list num) (xi x : num) : num :=
  evaluatePolynomial c (x - xi).

Definition segment_slope (c : list num) (xi x : num) : num :=
  evaluatePolynomial (derivative c) (x - xi).

(** The segment the evaluator is to use for the query [x]. *)
Definition selects (xs : list num) (x : num) (k : nat) : Prop :=
  (exists j, (j < length xs)%nat /\ (xs.[j] == x) = true /\
             k = Nat.min j (length xs - 2))
  \/ ((k + 1 < length xs)%nat /\ (xs.[k] < x) = true /\ (x < xs.[k + 1]) = true)
  \/ ((x < xs.[0]) = true /\ k = 0%nat)
  \/ ((xs.[length xs - 1] < x) = true /\ k = (length xs - 2)%nat).

(** The index the evaluator computes from the result of the search. *)
Definition clamp (size : nat) (i : Z) : Z :=
  let i := if (i <? 0)%Z then (- i - 2)%Z else i in
  Z.max 0 (Z.min i (Z.of_nat size - 1)).

(** What the search returns: the index of the knot equal to the key, or
    [-(p + 1)] where [p] is the insertion point. *)
Definition found (a : list num) (key : num) (m : Z) : Prop :=
  (0 <= m < Z.of_nat (length a))%Z /\ (a.[Z.to_nat m] == key) = true.

Definition insertion_point (a : list num) (key : num) (p : nat) : Prop :=
  (p <= length a)%nat /\
  (forall j, (j < p)%nat -> (a.[j] < key) = true) /\
  (forall j, (p <= j < length a)%nat -> (key < a.[j]) = true).

End Notions.

(** The laws of numbers that the properties below rely on: those of the
    comparisons, and that a product does not depend on the order of its
    factors.  Both instances satisfy them. *)
Class NumberLaws (num : Type) {N : Number num} : Prop := {
  mul_comm : forall a b, mul a b = mul b a;
  ltb_trans : forall a b c, ltb a b = true -> ltb b c = true -> ltb a c = true;
  ltb_asym : forall a b, ltb a b = true -> ltb b a = false;
  ltb_not_eqb : forall a b, ltb a b = true -> eqb a b = false /\ eqb b a = false;
  eqb_ltb_l : forall a b c, eqb a b = true -> ltb a c = true -> ltb b c = true;
  eqb_ltb_r : forall a b c, eqb a b = true -> ltb c a = true -> ltb c b = true;
  ltb_number : forall a b, ltb a b = true -> is_number a /\ is_number b;
  eqb_number : forall a b, eqb a b = true -> is_number a /\ is_number b;
  trichotomy : forall a b, is_number a -> is_number b ->
    ltb a b = true \/ eqb a b = true \/ ltb b a = true
}.

(** ** Test data *)

Definition floats (l : list Z) : list float := map float_of_Z l.
Definition rationals (l : list Z) : list Q := map inject_Z l.

Definition golden_x : list Z := [10; 20; 30; 40; 50; 60; 70; 80]%Z.
Definition golden_y : list Z := [40; 10; 17; 39; 99; 120; 30; 10]%Z.

(** A heap that holds the two arrays of the README, at locations 0 and 1. *)
Definition golden_heap : Heap.heap float :=
  [Heap.Numbers (floats golden_x); Heap.Numbers (floats golden_y)].

(** Two results are the same value, or the same exception. *)
Definition same_result (r1 r2 : result float) : bool :=
  match r1, r2 with
  | Ok a, Ok b => PrimFloat.eqb a b
  | Throw (Exception c1), Throw (Exception c2) => String.eqb c1 c2
  | Throw TypeError, Throw TypeError => true
  | Throw Error, Throw Error => true
  | _, _ => false
  end.

(** The fitted function applied: [createInterpolator(xs, ys)(x)]. *)
Definition fit_and_evaluate {num : Type} {N : Number num}
    (xs ys : option (list num)) (x : num) : result num :=
  f <- createInterpolator xs ys ;; f x.

(** ** Binary64: finite values, and data that overflow *)

(** The value a float stands for is a zero or a finite number; it is a
    zero. *)
Definition sf_finite (s : spec_float) : bool :=
  match s with
  | S754_zero _ | S754_finite _ _ _ => true
  | _ => false
  end.

Definition sf_zero (s : spec_float) : bool :=
  match s with
  | S754_zero _ => true
  | _ => false
  end.

(** Five knots and five finite values, the double nearest to 1e308 and its
    opposite among them: the slopes between them overflow. *)
Definition overflow_x : list float := floats [0; 1; 2; 3; 4]%Z.
Definition overflow_y : list float :=
  [ 0; 0x1.1ccf385ebc8ap+1023; -0x1.1ccf385ebc8ap+1023;
    0x1.1ccf385ebc8ap+1023; 0 ]%float.

(** Six knots and six small values: nothing overflows, the quotients are
    rounded. *)
Definition rounding_x : list float := floats [0; 1; 3; 6; 10; 17]%Z.
Definition rounding_y : list float := floats [0; 1; 3; 2; 7; 1]%Z.

(** ** Notions for the further properties *)

Section FurtherNotions.
Context {num : Type} {N : Number num}.
Local Open Scope num_scope.

(** The comparison of [checkOrder] that, true of an element [v] and the
    element [previous] before it, makes the loop stop. *)
Definition violates (dir : Z) (strict : bool) (previous v : num) : bool :=
  if (dir =? OrderDirection.INCREASING)%Z
  then (if strict then v <= previous else v < previous)
  else (if strict then v >= previous else v > previous).

(** No two adjacent elements of [val] violate the order. *)
Definition ordered (dir : Z) (strict : bool) (val : list num) : Prop :=
  forall i, (i + 1 < length val)%nat ->
    violates dir strict val.[i] val.[i + 1] = false.

(** The direction [checkOrder] works with: an omitted or zero [dir] is
    [INCREASING]. *)
Definition direction (dir : option Z) : Z :=
  match dir with
  | None => OrderDirection.INCREASING
  | Some d => d
  end.

(** The element of [a] at [i] compares with the key in none of the three
    ways. *)
Definition incomparable (a : list num) (key : num) (i : nat) : Prop :=
  (a.[i] < key) = false /\ (key < a.[i]) = false /\ (a.[i] == key) = false.

End FurtherNotions.

(** The law of [<=] that relates the strict check of [checkOrder] to the
    other comparisons.  Both instances satisfy it. *)
Class NumberLeb (num : Type) {N : Number num} : Prop := {
  leb_ltb_eqb : forall a b, leb a b = ltb a b || eqb a b
}.

(** Powers and polynomials over the rationals: [power_sum c x k] is the sum
    of the [c[j] * x^(k+j)]. *)
Fixpoint power (x : Q) (k : nat) : Q :=
  match k with
  | O => 1
  | S k' => x * power x k'
  end.

Fixpoint power_sum (c : list Q) (x : Q) (k : nat) : Q :=
  match c with
  | [] => 0
  | c0 :: c' => c0 * power x k + power_sum c' x (S k)
  end.

(** * Verification *)

Local Open Scope nat_scope.

(** ** Arrays and loops *)

Section ArrayFacts.
Context {A : Type} (hole : A).

Lemma get_set_same (a : list A) (i : nat) (v : A) :
  get hole (set hole a i v) i = v.
Proof.
  unfold get, set. destruct (Nat.ltb_spec i (length a)) as [Hi | Hi].
  - rewrite app_nth2; rewrite firstn_length_le by lia; [| lia].
    now rewrite Nat.sub_diag.
  - rewrite app_nth2 by lia. rewrite app_nth2; rewrite repeat_length; [| lia].
    now rewrite Nat.sub_diag.
Qed.

Lemma nth_replace (a : list A) (i j : nat) (v : A) :
  i < length a -> i <> j ->
  nth j (firstn i a ++ v :: skipn (S i) a) hole = nth j a hole.
Proof.
  revert i j. induction a as [| x a IH]; intros i j Hi Hij.
  - cbn in Hi. lia.
  - destruct i as [| i], j as [| j]; cbn in *; try reflexivity; try lia.
    apply IH; lia.
Qed.

Lemma get_set_other (a : list A) (i j : nat) (v : A) :
  i <> j -> get hole (set hole a i v) j = get hole a j.
Proof.
  intros Hij. unfold get, set.
  destruct (Nat.ltb_spec i (length a)) as [Hi | Hi].
  - now apply nth_replace.
  - destruct (Nat.lt_ge_cases j (length a)) as [Hj | Hj].
    + now rewrite app_nth1.
    + rewrite app_nth2 by lia. rewrite (nth_overflow a) by lia.
      destruct (Nat.lt_ge_cases (j - length a) (i - length a)) as [Hg | Hg].
      * rewrite app_nth1 by (rewrite repeat_length; lia).
        apply nth_repeat.
      * rewrite app_nth2 by (rewrite repeat_length; lia).
        rewrite repeat_length.
        destruct (j - length a - (i - length a)) as [| d] eqn:Hd; [lia |].
        cbn. now destruct d.
Qed.

Lemma length_set (a : list A) (i : nat) (v : A) :
  (i < length a)%nat -> length (set hole a i v) = length a.
Proof.
  intros Hi. unfold set. destruct (Nat.ltb_spec i (length a)); [| lia].
  rewrite length_app, firstn_length_le by lia. cbn [length].
  rewrite length_skipn. lia.
Qed.

Lemma length_new_Array (n : nat) : length (new_Array hole n) = n.
Proof. apply repeat_length. Qed.

End ArrayFacts.

Section LoopFacts.
Context {State : Type}.

Lemma for_loop_empty (lo hi : nat) (body : nat -> State -> State) (s : State) :
  (hi <= lo)%nat -> for_loop lo hi body s = s.
Proof.
  intros H. unfold for_loop. replace (hi - lo)%nat with 0%nat by lia.
  reflexivity.
Qed.

Lemma for_loop_last (lo hi : nat) (body : nat -> State -> State) (s : State) :
  (lo <= hi)%nat ->
  for_loop lo (hi + 1) body s = body hi (for_loop lo hi body s).
Proof.
  intros H. unfold for_loop.
  replace (hi + 1 - lo)%nat with ((hi - lo) + 1)%nat by lia.
  rewrite seq_app, fold_left_app. cbn.
  now replace (lo + (hi - lo))%nat with hi by lia.
Qed.

(** The invariant rule of a [for] loop. *)
Lemma for_loop_invariant (P : nat -> State -> Prop) (lo hi : nat)
    (body : nat -> State -> State) (s : State) :
  (lo <= hi)%nat ->
  P lo s ->
  (forall i s, (lo <= i < hi)%nat -> P i s -> P (i + 1)%nat (body i s)) ->
  P hi (for_loop lo hi body s).
Proof.
  intros Hle H0 Hstep.
  induction hi as [| hi IH].
  - replace lo with 0%nat in * by lia. now rewrite for_loop_empty.
  - destruct (Nat.eq_dec lo (S hi)) as [-> | Hne].
    + now rewrite for_loop_empty.
    + replace (S hi) with (hi + 1)%nat by lia.
      rewrite for_loop_last by lia.
      apply Hstep; [lia |]. apply IH; [lia |].
      intros i s' Hi. apply Hstep. lia.
Qed.
End LoopFacts.

(** A loop whose body assigns [f i] to element [i] of its array. *)
Lemma for_loop_set {A : Type} (hole : A) (f : nat -> A) (lo hi : nat)
    (body : nat -> list A -> list A) (a : list A) :
  (forall i arr, body i arr = set hole arr i (f i)) ->
  (hi <= length a)%nat ->
  length (for_loop lo hi body a) = length a /\
  forall j, get hole (for_loop lo hi body a) j =
            if (lo <=? j)%nat && (j <? hi)%nat then f j else get hole a j.
Proof.
  intros Hbody Hhi.
  destruct (Nat.le_gt_cases lo hi) as [Hle | Hgt].
  - apply (for_loop_invariant
             (fun k arr => length arr = length a /\
                forall j, get hole arr j =
                  if (lo <=? j)%nat && (j <? k)%nat then f j else get hole a j));
      [assumption | |].
    + split; [reflexivity |]. intros j.
      destruct (Nat.leb_spec lo j), (Nat.ltb_spec j lo); cbn; try reflexivity; lia.
    + intros i arr Hi [Hlen Hget]. rewrite Hbody. split.
      * rewrite length_set; lia.
      * intros j. destruct (Nat.eq_dec i j) as [<- | Hij].
        -- rewrite get_set_same.
           destruct (Nat.leb_spec lo i), (Nat.ltb_spec i (i + 1)); cbn;
             try reflexivity; lia.
        -- rewrite get_set_other by assumption. rewrite Hget.
           destruct (Nat.leb_spec lo j), (Nat.ltb_spec j i),
             (Nat.ltb_spec j (i + 1)); cbn; try reflexivity; lia.
  - rewrite for_loop_empty by lia. split; [reflexivity |]. intros j.
    destruct (Nat.leb_spec lo j), (Nat.ltb_spec j hi); cbn; try reflexivity; lia.
Qed.

(** ** The derivative estimator *)

Section Estimator.
Context {num : Type} {N : Number num}.
Local Open Scope num_scope.

Variables xs ys : list num.
Hypothesis five : (5 <= length xs)%nat.

Let n := length xs.
Let differences :=
  for_loop 0 (n - 1) (differences_body xs ys) (new_Array NaN (n - 1)).
Let weights :=
  for_loop 1 (n - 1) (weights_body differences) (new_Array NaN (n - 1)).
Let interior :=
  for_loop 2 (n - 2) (derivatives_body xs differences weights)
    (new_Array NaN n).

Lemma differences_get (j : nat) :
  (j < n - 1)%nat -> differences.[j] = diff xs ys j.
Proof.
  intros Hj. subst differences.
  destruct (for_loop_set NaN (diff xs ys) 0 (n - 1)
              (differences_body xs ys) (new_Array NaN (n - 1))) as [_ H].
  - reflexivity.
  - now rewrite length_new_Array.
  - rewrite H. destruct (Nat.ltb_spec j (n - 1)); [reflexivity | lia].
Qed.

Lemma weights_get (j : nat) :
  (1 <= j < n - 1)%nat -> weights.[j] = weight xs ys j.
Proof.
  intros Hj. subst weights.
  destruct (for_loop_set NaN
              (fun i => abs (differences.[i] - differences.[i - 1]))
              1 (n - 1) (weights_body differences) (new_Array NaN (n - 1)))
    as [_ H].
  - reflexivity.
  - now rewrite length_new_Array.
  - rewrite H.
    destruct (Nat.leb_spec 1 j), (Nat.ltb_spec j (n - 1)); try lia.
    cbn [andb]. unfold weight. rewrite !differences_get by lia. reflexivity.
Qed.

Lemma interior_spec :
  length interior = n /\
  forall i, (2 <= i < n - 2)%nat -> interior.[i] = interior_derivative xs ys i.
Proof.
  subst interior.
  destruct (for_loop_set NaN
    (fun i =>
       if (abs weights.[i + 1] < EPSILON) && (abs weights.[i - 1] < EPSILON)
       then ((xs.[i + 1] - xs.[i]) * differences.[i - 1]
             + (xs.[i] - xs.[i - 1]) * differences.[i])
            / (xs.[i + 1] - xs.[i - 1])
       else (weights.[i + 1] * differences.[i - 1]
             + weights.[i - 1] * differences.[i])
            / (weights.[i + 1] + weights.[i - 1]))
    2 (n - 2) (derivatives_body xs differences weights) (new_Array NaN n))
    as [Hlen H].
  - intros i arr. unfold derivatives_body.
    now destruct ((abs weights.[i + 1] < EPSILON)
                  && (abs weights.[i - 1] < EPSILON)).
  - rewrite length_new_Array. lia.
  - split; [now rewrite Hlen, length_new_Array |].
    intros i Hi. rewrite H.
    destruct (Nat.leb_spec 2 i), (Nat.ltb_spec i (n - 2)); try lia.
    cbn [andb]. unfold interior_derivative.
    rewrite !weights_get, !differences_get by lia. reflexivity.
Qed.

Lemma firstDerivatives_of_unfold :
  firstDerivatives_of xs ys =
  set NaN (set NaN (set NaN (set NaN interior
    0 (differentiateThreePoint xs ys 0 0 1 2))
    1 (differentiateThreePoint xs ys 1 0 1 2))
    (n - 2) (differentiateThreePoint xs ys (n - 2) (n - 3) (n - 2) (n - 1)))
    (n - 1) (differentiateThreePoint xs ys (n - 1) (n - 3) (n - 2) (n - 1)).
Proof.
  unfold firstDerivatives_of. rewrite !length_new_Array. reflexivity.
Qed.

Lemma length_firstDerivatives_of : length (firstDerivatives_of xs ys) = n.
Proof.
  rewrite firstDerivatives_of_unfold.
  destruct interior_spec as [Hlen _]. fold n in five.
  assert (H0 : length (set NaN interior 0
                         (differentiateThreePoint xs ys 0 0 1 2)) = n)
    by (rewrite length_set; lia).
  assert (H1 : length (set NaN (set NaN interior 0
                         (differentiateThreePoint xs ys 0 0 1 2)) 1
                         (differentiateThreePoint xs ys 1 0 1 2)) = n)
    by (rewrite length_set; lia).
  rewrite length_set; rewrite length_set; lia.
Qed.

Lemma firstDerivatives_of_interior (i : nat) :
  (2 <= i < n - 2)%nat ->
  (firstDerivatives_of xs ys).[i] = interior_derivative xs ys i.
Proof.
  intros Hi. rewrite firstDerivatives_of_unfold.
  rewrite !get_set_other by lia. now apply interior_spec.
Qed.

Lemma firstDerivatives_of_boundary :
  (firstDerivatives_of xs ys).[0] = differentiateThreePoint xs ys 0 0 1 2 /\
  (firstDerivatives_of xs ys).[1] = differentiateThreePoint xs ys 1 0 1 2 /\
  (firstDerivatives_of xs ys).[n - 2] =
    differentiateThreePoint xs ys (n - 2) (n - 3) (n - 2) (n - 1) /\
  (firstDerivatives_of xs ys).[n - 1] =
    differentiateThreePoint xs ys (n - 1) (n - 3) (n - 2) (n - 1).
Proof.
  rewrite firstDerivatives_of_unfold. repeat split.
  - rewrite !get_set_other by lia. apply get_set_same.
  - rewrite !get_set_other by lia. apply get_set_same.
  - rewrite get_set_other by lia. apply get_set_same.
  - apply get_set_same.
Qed.
End Estimator.

(** ** The order check *)

Section Order.
Context {num : Type} {N : Number num}.
Local Open Scope num_scope.

(** With a direction the [switch] knows, the loop of [checkOrder] ends
    without an exception. *)
Lemma checkOrder_loop_returns (dir : Z) (strict : bool) (rest : list num) :
  (dir = OrderDirection.INCREASING \/ dir = OrderDirection.DECREASING) ->
  forall previous index,
    exists k, checkOrder_loop dir strict previous rest index = Ok k.
Proof.
  intros Hdir. induction rest as [| v rest IH]; intros previous index.
  - now exists index.
  - cbn [checkOrder_loop].
    destruct Hdir as [-> | ->]; cbn [Z.eqb OrderDirection.INCREASING
      OrderDirection.DECREASING Pos.eqb].
    + destruct (if strict then v <= previous else v < previous);
        [now exists index | apply IH].
    + destruct (if strict then v >= previous else v > previous);
        [now exists index | apply IH].
Qed.

(** [checkOrder(val)], as [interpolate] calls it, returns a boolean whatever
    the array is. *)
Lemma checkOrder_default_returns (val : list num) :
  exists b, checkOrder val None false false = Ok b.
Proof.
  unfold checkOrder.
  destruct (checkOrder_loop_returns OrderDirection.INCREASING false (tl val)
              (or_introl eq_refl) val.[0] 1) as [k ->].
  cbn [bind]. destruct (k =? length val)%nat; eauto.
Qed.

(** A [throw] of [checkOrder] never carries an instance of a class that
    [exceptions.js] does not export. *)
Lemma E_new_exported (cls cls' : string) :
  E_new cls = Exception cls' -> In cls' exports.
Proof.
  unfold E_new. destruct (in_dec string_dec cls exports) as [Hin | Hout];
    [| discriminate].
  intros H. now injection H as <-.
Qed.

Lemma checkOrder_loop_throws (dir : Z) (strict : bool) (rest : list num) :
  forall previous index e,
    checkOrder_loop dir strict previous rest index = Throw e ->
    e = E_new "MathInternalError".
Proof.
  induction rest as [| v rest IH]; intros previous index e; cbn [checkOrder_loop].
  - discriminate.
  - destruct (dir =? OrderDirection.INCREASING)%Z.
    + destruct (if strict then v <= previous else v < previous);
        [discriminate | apply IH].
    + destruct (dir =? OrderDirection.DECREASING)%Z.
      * destruct (if strict then v >= previous else v > previous);
          [discriminate | apply IH].
      * intros H. now injection H as <-.
Qed.
End Order.

(** ** The Hermite converter *)

Section Converter.
Context {num : Type} {N : Number num}.
Local Open Scope num_scope.

(** Four assignments to the scratch array leave exactly the four values,
    whether the array was empty (first iteration) or full. *)
Lemma scratch_filled (coefficients : list num) (a b c d : num) :
  (length coefficients <= 4)%nat ->
  set NaN (set NaN (set NaN (set NaN coefficients 0 a) 1 b) 2 c) 3 d
  = [a; b; c; d].
Proof.
  intros H.
  destruct coefficients as [| c0 [| c1 [| c2 [| c3 [| c4 rest]]]]];
    cbn in H; try lia; reflexivity.
Qed.

Variables xs ys fd : list num.

Lemma hermite_body_spec (i : nat) (coefficients : list num) (t : table) :
  (length coefficients <= 4)%nat ->
  hermite_body xs ys fd i (coefficients, t)
  = (segment xs ys fd i, set None t i (Some (segment xs ys fd i))).
Proof.
  intros H. unfold hermite_body. cbv zeta.
  rewrite scratch_filled by assumption. reflexivity.
Qed.

Lemma hermite_loop_spec (size : nat) :
  let r := for_loop 0 size (hermite_body xs ys fd) ([], new_Array None size) in
  length (snd r) = size /\
  forall i, (i < size)%nat -> get None (snd r) i = Some (segment xs ys fd i).
Proof.
  cbv zeta.
  pose (P := fun (k : nat) (s : list num * table) =>
    (length (fst s) <= 4)%nat /\ length (snd s) = size /\
    forall i, (i < k)%nat -> get None (snd s) i = Some (segment xs ys fd i)).
  assert (H : P size (for_loop 0 size (hermite_body xs ys fd)
                        ([], new_Array None size))).
  { apply for_loop_invariant; [lia | |].
    - split; [| split]; cbn [fst snd length];
        [lia | apply length_new_Array | lia].
    - intros i [coefficients t] Hi (Hc & Hlen & Hget). cbn [fst snd] in *.
      rewrite hermite_body_spec by assumption. unfold P. cbn [fst snd].
      split; [| split].
      + cbn. lia.
      + rewrite length_set; lia.
      + intros j Hj. destruct (Nat.eq_dec i j) as [<- | Hij].
        * apply get_set_same.
        * rewrite get_set_other by assumption. apply Hget. lia. }
  destruct H as (_ & Hlen & Hget). now split.
Qed.

Lemma interpolateHermiteSorted_spec :
  length xs = length ys -> length xs = length fd -> (2 <= length xs)%nat ->
  exists t, interpolateHermiteSorted xs ys fd = Ok t /\
    length t = (length xs - 1)%nat /\
    forall i, (i < length xs - 1)%nat ->
              get None t i = Some (segment xs ys fd i).
Proof.
  intros Hy Hd Hn. unfold interpolateHermiteSorted.
  rewrite <- Hy, <- Hd, Nat.eqb_refl. cbn [negb].
  destruct (Nat.ltb_spec (length xs) 2); [lia |].
  eexists. split; [reflexivity |]. apply hermite_loop_spec.
Qed.
End Converter.

(** ** The fit *)

Section Fit.
Context {num : Type} {N : Number num}.
Local Open Scope num_scope.

(** On two arrays of one length, five or more, [interpolate] returns the
    table of the segments built from the estimated derivatives. *)
Lemma interpolate_spec (xs ys : list num) :
  length xs = length ys -> (5 <= length xs)%nat ->
  exists t, interpolate (Some xs) (Some ys) = Ok t /\
    length t = (length xs - 1)%nat /\
    forall i, (i < length xs - 1)%nat ->
      get None t i = Some (segment xs ys (firstDerivatives_of xs ys) i).
Proof.
  intros Hy Hn. unfold interpolate.
  rewrite <- Hy, Nat.eqb_refl. cbn [negb].
  unfold MINIMUM_NUMBER_POINTS.
  destruct (Nat.ltb_spec (length xs) 5); [lia |].
  destruct (checkOrder_default_returns xs) as [b ->]. cbn [bind].
  apply interpolateHermiteSorted_spec;
    [assumption | now rewrite length_firstDerivatives_of | lia].
Qed.

Lemma createInterpolator_spec (xs ys : list num) :
  length xs = length ys -> (5 <= length xs)%nat ->
  exists t, interpolate (Some xs) (Some ys) = Ok t /\
    createInterpolator (Some xs) (Some ys)
    = Ok (fun x => evaluatePolynomialSegment xs t x).
Proof.
  intros Hy Hn. destruct (interpolate_spec xs ys Hy Hn) as (t & Ht & _).
  exists t. split; [assumption |]. unfold createInterpolator.
  rewrite Ht. reflexivity.
Qed.
End Fit.

(** ** The binary search *)

Lemma mid_bounds (low high : Z) :
  (0 <= low)%Z -> (low <= high)%Z -> (high < 2 ^ 31)%Z ->
  let mid := Z.shiftr ((low + high) mod 2 ^ 32) 1 in
  (low <= mid <= high)%Z.
Proof.
  intros H0 Hle Hhi. cbv zeta.
  rewrite Z.mod_small by lia.
  rewrite Z.shiftr_div_pow2 by lia. change (2 ^ 1)%Z with 2%Z.
  split.
  - apply Z.div_le_lower_bound; lia.
  - apply Z.div_le_upper_bound; lia.
Qed.

Section Search.
Context {num : Type} {N : Number num}.
Variable a : list num.
Variable key : num.
Hypothesis small : (Z.of_nat (length a) <= 2 ^ 31)%Z.

(** The loop needs no more iterations than the interval has elements:
    its result does not depend on the fuel beyond that. *)
Lemma binarySearch_loop_fuel (fuel fuel' : nat) :
  forall low high,
    (0 <= low)%Z -> (high < Z.of_nat (length a))%Z ->
    (high - low + 1 <= Z.of_nat fuel)%Z ->
    (high - low + 1 <= Z.of_nat fuel')%Z ->
    binarySearch_loop fuel a key low high
    = binarySearch_loop fuel' a key low high.
Proof.
  revert fuel'. induction fuel as [| fuel IH]; intros fuel' low high H0 Hhi Hf Hf'.
  - destruct fuel' as [| fuel']; [reflexivity |]. cbn [binarySearch_loop].
    destruct (Z.leb_spec low high); [lia | reflexivity].
  - destruct fuel' as [| fuel'].
    + cbn [binarySearch_loop].
      destruct (Z.leb_spec low high); [lia | reflexivity].
    + cbn [binarySearch_loop].
      destruct (Z.leb_spec low high) as [Hle | Hgt]; [| reflexivity].
      pose proof (mid_bounds low high H0 Hle ltac:(lia)) as Hmid.
      cbv zeta in Hmid.
      destruct (_ < key)%num; [apply IH; lia |].
      destruct (key < _)%num; [apply IH; lia |]. reflexivity.
Qed.

Context {L : NumberLaws num}.
Hypothesis numbers : forall i, i < length a -> is_number (a.[i])%num.
Hypothesis key_number : is_number key.

(** Over knots that are numbers and for a key that is one, the search
    never meets the [throw] of its last branch. *)
Lemma binarySearch_loop_returns (fuel : nat) :
  forall low high,
    (0 <= low)%Z -> (high < Z.of_nat (length a))%Z ->
    exists m, binarySearch_loop fuel a key low high = Ok m.
Proof.
  induction fuel as [| fuel IH]; intros low high H0 Hhi; cbn [binarySearch_loop].
  - eauto.
  - destruct (Z.leb_spec low high) as [Hle | Hgt]; [| eauto].
    pose proof (mid_bounds low high H0 Hle ltac:(lia)) as Hmid.
    cbv zeta in Hmid.
    remember (Z.shiftr ((low + high) mod 2 ^ 32) 1) as mid.
    destruct (a.[Z.to_nat mid] < key)%num eqn:Hlt; [apply IH; lia |].
    destruct (key < a.[Z.to_nat mid])%num eqn:Hgt; [apply IH; lia |].
    destruct (trichotomy (a.[Z.to_nat mid])%num key) as [H | [H | H]];
      [apply numbers; lia | assumption | congruence | | congruence].
    rewrite H. eauto.
Qed.

Hypothesis sorted : strictly_increasing a.

Lemma sorted_lt (i j : nat) :
  i < j -> j < length a -> (a.[i] < a.[j])%num = true.
Proof.
  intros Hij Hj. induction j as [| j IH]; [lia |].
  destruct (Nat.eq_dec i j) as [-> | Hne].
  - replace (S j) with (j + 1) by lia. apply sorted. lia.
  - apply ltb_trans with (a.[j])%num; [apply IH; lia |].
    replace (S j) with (j + 1) by lia. apply sorted. lia.
Qed.

Lemma binarySearch_loop_spec (fuel : nat) :
  forall low high,
    (0 <= low)%Z -> (high < Z.of_nat (length a))%Z -> (low <= high + 1)%Z ->
    (high - low + 1 <= Z.of_nat fuel)%Z ->
    (forall j, (Z.of_nat j < low)%Z -> (a.[j] < key)%num = true) ->
    (forall j, (high < Z.of_nat j)%Z -> j < length a -> (key < a.[j])%num = true) ->
    exists m, binarySearch_loop fuel a key low high = Ok m /\
      (found a key m \/
       exists p, m = (- (Z.of_nat p + 1))%Z /\ insertion_point a key p).
Proof.
  induction fuel as [| fuel IH]; intros low high H0 Hhi Hlh Hf Hbelow Habove.
  - cbn [binarySearch_loop]. eexists. split; [reflexivity |]. right.
    exists (Z.to_nat low). split; [f_equal; lia |].
    split; [lia |]. split; intros j Hj; [apply Hbelow | apply Habove]; lia.
  - cbn [binarySearch_loop].
    destruct (Z.leb_spec low high) as [Hle | Hgt].
    + pose proof (mid_bounds low high H0 Hle ltac:(lia)) as Hmid.
      cbv zeta in Hmid.
      remember (Z.shiftr ((low + high) mod 2 ^ 32) 1) as mid.
      destruct (a.[Z.to_nat mid] < key)%num eqn:Hlt.
      { apply IH; try lia; [| intros j Hj; apply Habove; lia].
        intros j Hj.
        destruct (Nat.eq_dec j (Z.to_nat mid)) as [-> | Hne]; [assumption |].
        apply ltb_trans with (a.[Z.to_nat mid])%num; [| assumption].
        apply sorted_lt; lia. }
      destruct (key < a.[Z.to_nat mid])%num eqn:Hgt.
      { apply IH; try lia; [intros j Hj; apply Hbelow; lia |].
        intros j Hj Hjn.
        destruct (Nat.eq_dec j (Z.to_nat mid)) as [-> | Hne]; [assumption |].
        apply ltb_trans with (a.[Z.to_nat mid])%num; [assumption |].
        apply sorted_lt; lia. }
      destruct (trichotomy (a.[Z.to_nat mid])%num key) as [H | [H | H]];
        [apply numbers; lia | assumption | congruence | | congruence].
      rewrite H. eexists. split; [reflexivity |]. left. split; [lia | assumption].
    + eexists. split; [reflexivity |]. right.
      exists (Z.to_nat low). split; [f_equal; lia |].
      split; [lia |]. split; intros j Hj; [apply Hbelow | apply Habove]; lia.
Qed.

Lemma binarySearch_spec :
  exists m, binarySearch a key = Ok m /\
    (found a key m \/
       exists p, m = (- (Z.of_nat p + 1))%Z /\ insertion_point a key p).
Proof.
  unfold binarySearch. apply binarySearch_loop_spec; lia.
Qed.
End Search.

(** ** The comparisons of the two instances *)

(** *** Binary64 floats: the comparisons as the kernel specifies them *)

Ltac sf_cases :=
  repeat match goal with
  | s : bool |- _ => destruct s
  | x : spec_float |- _ => destruct x
  end.

Ltac cmp_cases :=
  change (Pos.compare_cont Eq) with Pos.compare in *;
  repeat match goal with
  | H : context [Z.compare ?x ?y] |- _ =>
      destruct (Z.compare_spec x y); try discriminate H
  | |- context [Z.compare ?x ?y] => destruct (Z.compare_spec x y)
  | H : context [Pos.compare ?x ?y] |- _ =>
      destruct (Pos.compare_spec x y); try discriminate H
  | |- context [Pos.compare ?x ?y] => destruct (Pos.compare_spec x y)
  end.

Ltac sf_solve :=
  unfold SFltb, SFeqb, SFcompare; intros;
  sf_cases; cbn in *; try discriminate; try tauto; try reflexivity;
  cmp_cases; subst; try discriminate; try tauto; try reflexivity; try lia.

Lemma SFltb_trans (a b c : spec_float) :
  SFltb a b = true -> SFltb b c = true -> SFltb a c = true.
Proof. sf_solve. Qed.

Lemma SFltb_asym (a b : spec_float) : SFltb a b = true -> SFltb b a = false.
Proof. sf_solve. Qed.

Lemma SFltb_not_eqb (a b : spec_float) :
  SFltb a b = true -> SFeqb a b = false /\ SFeqb b a = false.
Proof. sf_solve. Qed.

Lemma SFeqb_ltb_l (a b c : spec_float) :
  SFeqb a b = true -> SFltb a c = true -> SFltb b c = true.
Proof. sf_solve. Qed.

Lemma SFeqb_ltb_r (a b c : spec_float) :
  SFeqb a b = true -> SFltb c a = true -> SFltb c b = true.
Proof. sf_solve. Qed.

Lemma SFltb_number (a b : spec_float) :
  SFltb a b = true -> SFeqb a a = true /\ SFeqb b b = true.
Proof. sf_solve. Qed.

Lemma SFeqb_number (a b : spec_float) :
  SFeqb a b = true -> SFeqb a a = true /\ SFeqb b b = true.
Proof. sf_solve. Qed.

Lemma SF_trichotomy (a b : spec_float) :
  SFeqb a a = true -> SFeqb b b = true ->
  SFltb a b = true \/ SFeqb a b = true \/ SFltb b a = true.
Proof. sf_solve. Qed.

Lemma SFmul_comm (prec emax : Z) (x y : spec_float) :
  SFmul prec emax x y = SFmul prec emax y x.
Proof.
  destruct x as [[|] | [|] | | [|] mx ex], y as [[|] | [|] | | [|] my ey];
    cbn; try reflexivity;
    rewrite (Pos.mul_comm mx my), (Z.add_comm ex ey); reflexivity.
Qed.

#[export] Instance NumberLaws_float : NumberLaws float.
Proof.
  constructor; unfold is_number; cbn [mul ltb eqb Number_float]; intros *;
    rewrite ?FloatAxioms.ltb_spec, ?FloatAxioms.eqb_spec.
  - apply FloatAxioms.Prim2SF_inj. rewrite !FloatAxioms.mul_spec.
    apply SFmul_comm.
  - apply SFltb_trans.
  - apply SFltb_asym.
  - apply SFltb_not_eqb.
  - apply SFeqb_ltb_l.
  - apply SFeqb_ltb_r.
  - apply SFltb_number.
  - apply SFeqb_number.
  - apply SF_trichotomy.
Qed.

(** *** Rationals *)

Lemma Q_lt_iff (a b : Q) : ltb a b = true <-> (a < b)%Q.
Proof.
  cbn [ltb Number_Q]. rewrite negb_true_iff.
  split.
  - intros H. apply Qnot_le_lt. intros Hle.
    apply Qle_bool_iff in Hle. congruence.
  - intros H. destruct (Qle_bool b a) eqn:E; [| reflexivity].
    apply Qle_bool_iff in E. lra.
Qed.

Lemma Q_eq_iff (a b : Q) : eqb a b = true <-> (a == b)%Q.
Proof. apply Qeq_bool_iff. Qed.

Lemma Q_lt_false_iff (a b : Q) : ltb a b = false <-> (b <= a)%Q.
Proof.
  cbn [ltb Number_Q]. rewrite negb_false_iff. apply Qle_bool_iff.
Qed.

Lemma Q_is_number (a : Q) : is_number a.
Proof. apply Q_eq_iff. reflexivity. Qed.

#[export] Instance NumberLaws_Q : NumberLaws Q.
Proof.
  constructor; intros *;
    [ cbn [mul Number_Q]; unfold Qmult; f_equal;
      [apply Z.mul_comm | apply Pos.mul_comm] | .. ];
    rewrite ?Q_lt_iff, ?Q_lt_false_iff, <- ?not_true_iff_false, ?Q_eq_iff;
    try (split; apply Q_is_number); lra.
Qed.

(** ** The segment locator and the evaluator *)

Section Evaluator.
Context {num : Type} {N : Number num} {L : NumberLaws num}.

Lemma evaluatePolynomial_cubic (c0 c1 c2 c3 t : num) :
  evaluatePolynomial [c0; c1; c2; c3] t = horner c0 c1 c2 c3 t.
Proof.
  unfold horner. cbn. now rewrite !(mul_comm t).
Qed.

Lemma ltb_irrefl (a b : num) : ltb a b = true -> ltb b a = true -> False.
Proof. intros H1 H2. apply ltb_asym in H1. congruence. Qed.

Lemma ltb_eqb_contra (a b : num) : ltb a b = true -> eqb a b = true -> False.
Proof. intros H1 H2. apply ltb_not_eqb in H1 as [H1 _]. congruence. Qed.

Lemma gtb_eqb_contra (a b : num) : ltb b a = true -> eqb a b = true -> False.
Proof. intros H1 H2. apply ltb_not_eqb in H1 as [_ H1]. congruence. Qed.

Variable xs : list num.
Hypothesis small : (Z.of_nat (length xs) <= 2 ^ 31)%Z.
Hypothesis two : 2 <= length xs.
Hypothesis sorted : strictly_increasing xs.

Lemma knots_are_numbers (i : nat) : i < length xs -> is_number (xs.[i])%num.
Proof.
  intros Hi. destruct i as [| i].
  - apply (ltb_number (xs.[0])%num (xs.[0 + 1])%num). apply sorted. lia.
  - replace (S i) with (i + 1) by lia.
    apply (ltb_number (xs.[i])%num (xs.[i + 1])%num). apply sorted. lia.
Qed.

Lemma selects_number (x : num) (k : nat) : selects xs x k -> is_number x.
Proof.
  intros [(j & _ & H & _) | [(_ & H & _) | [(H & _) | (H & _)]]].
  - now apply eqb_number in H.
  - now apply ltb_number in H.
  - now apply ltb_number in H.
  - now apply ltb_number in H.
Qed.

(** Two knots equal to one key are the same knot. *)
Lemma knot_unique (x : num) (i j : nat) :
  i < length xs -> j < length xs ->
  eqb (xs.[i])%num x = true -> eqb (xs.[j])%num x = true -> i = j.
Proof.
  intros Hi Hj Ei Ej.
  destruct (Nat.lt_trichotomy i j) as [H | [H | H]]; [| assumption |]; exfalso.
  - pose proof (sorted_lt xs sorted i j H Hj) as Hlt.
    apply (eqb_ltb_r _ _ _ Ej) in Hlt. exact (ltb_eqb_contra _ _ Hlt Ei).
  - pose proof (sorted_lt xs sorted j i H Hi) as Hlt.
    apply (eqb_ltb_r _ _ _ Ei) in Hlt. exact (ltb_eqb_contra _ _ Hlt Ej).
Qed.

Lemma segment_index (x : num) (k : nat) :
  selects xs x k ->
  exists m, binarySearch xs x = Ok m /\
            Z.to_nat (clamp (length xs - 1) m) = k /\ k < length xs - 1.
Proof.
  intros Hsel. pose proof (selects_number x k Hsel) as Hx.
  destruct (binarySearch_spec xs x small knots_are_numbers Hx sorted)
    as (m & Hm & Hres).
  exists m. split; [assumption |]. unfold clamp.
  destruct Hres as [[Hrange Hfound] | (p & -> & Hp & Hbelow & Habove)].
  - destruct (Z.ltb_spec m 0); [lia |].
    destruct Hsel as [(j & Hj & E & ->) | [(Hk & H1 & H2) | [(H1 & ->) | (H1 & ->)]]].
    + assert (Z.to_nat m = j) as <- by (apply (knot_unique x); [lia | | |]; assumption).
      lia.
    + exfalso. destruct (Nat.le_gt_cases (Z.to_nat m) k) as [Hmk | Hmk].
      * destruct (Nat.eq_dec (Z.to_nat m) k) as [Heq | Hne].
        -- rewrite Heq in Hfound. exact (ltb_eqb_contra _ _ H1 Hfound).
        -- pose proof (sorted_lt xs sorted (Z.to_nat m) k ltac:(lia) ltac:(lia)) as Hlt.
           pose proof (ltb_trans _ _ _ Hlt H1) as Hlt'.
           exact (ltb_eqb_contra _ _ Hlt' Hfound).
      * destruct (Nat.eq_dec (Z.to_nat m) (k + 1)) as [Heq | Hne].
        -- rewrite Heq in Hfound. exact (gtb_eqb_contra _ _ H2 Hfound).
        -- pose proof (sorted_lt xs sorted (k + 1) (Z.to_nat m) ltac:(lia) ltac:(lia)) as Hlt.
           pose proof (ltb_trans _ _ _ H2 Hlt) as Hlt'.
           exact (gtb_eqb_contra _ _ Hlt' Hfound).
    + exfalso. destruct (Nat.eq_dec (Z.to_nat m) 0) as [Heq | Hne].
      * rewrite Heq in Hfound. exact (gtb_eqb_contra _ _ H1 Hfound).
      * pose proof (sorted_lt xs sorted 0 (Z.to_nat m) ltac:(lia) ltac:(lia)) as Hlt.
        pose proof (ltb_trans _ _ _ H1 Hlt) as Hlt'.
        exact (gtb_eqb_contra _ _ Hlt' Hfound).
    + exfalso. destruct (Nat.eq_dec (Z.to_nat m) (length xs - 1)) as [Heq | Hne].
      * rewrite Heq in Hfound. exact (ltb_eqb_contra _ _ H1 Hfound).
      * pose proof (sorted_lt xs sorted (Z.to_nat m) (length xs - 1)
                      ltac:(lia) ltac:(lia)) as Hlt.
        pose proof (ltb_trans _ _ _ Hlt H1) as Hlt'.
        exact (ltb_eqb_contra _ _ Hlt' Hfound).
  - destruct (Z.ltb_spec (- (Z.of_nat p + 1)) 0); [| lia].
    destruct Hsel as [(j & Hj & E & ->) | [(Hk & H1 & H2) | [(H1 & ->) | (H1 & ->)]]].
    + exfalso. destruct (Nat.lt_ge_cases j p) as [Hjp | Hjp].
      * exact (ltb_eqb_contra _ _ (Hbelow j Hjp) E).
      * exact (gtb_eqb_contra _ _ (Habove j ltac:(lia)) E).
    + assert (k < p).
      { destruct (Nat.lt_ge_cases k p); [assumption | exfalso].
        exact (ltb_irrefl _ _ H1 (Habove k ltac:(lia))). }
      assert (p <= k + 1).
      { destruct (Nat.le_gt_cases p (k + 1)); [assumption | exfalso].
        exact (ltb_irrefl _ _ H2 (Hbelow (k + 1) ltac:(lia))). }
      lia.
    + assert (p = 0).
      { destruct p; [reflexivity | exfalso].
        exact (ltb_irrefl _ _ H1 (Hbelow 0 ltac:(lia))). }
      lia.
    + assert (p = length xs).
      { destruct (Nat.eq_dec p (length xs)); [assumption | exfalso].
        exact (ltb_irrefl _ _ H1 (Habove (length xs - 1) ltac:(lia))). }
      lia.
Qed.

(** The evaluator on the segment that the query selects. *)
Lemma evaluatePolynomialSegment_selects (t : table) (x : num) (k : nat)
    (c : list num) :
  length t = length xs - 1 ->
  selects xs x k ->
  get None t k = Some c ->
  evaluatePolynomialSegment xs t x
  = Ok (evaluatePolynomial c (sub x (xs.[k])%num)).
Proof.
  intros Ht Hsel Hrow. destruct (segment_index x k Hsel) as (m & Hm & Hk & _).
  unfold evaluatePolynomialSegment. rewrite Hm. cbn [bind].
  rewrite Ht. fold (clamp (length xs - 1) m). rewrite Hk, Hrow. reflexivity.
Qed.

(** Every query that is a number selects a segment. *)
Lemma selects_total (x : num) : is_number x -> exists k, selects xs x k.
Proof.
  intros Hx.
  destruct (binarySearch_spec xs x small knots_are_numbers Hx sorted)
    as (m & _ & [[Hrange Hfound] | (p & _ & Hp & Hbelow & Habove)]).
  - exists (Nat.min (Z.to_nat m) (length xs - 2)). left.
    exists (Z.to_nat m). repeat split; [lia | assumption].
  - destruct p as [| p].
    + exists 0. right. right. left. split; [apply Habove; lia | reflexivity].
    + destruct (Nat.eq_dec (S p) (length xs)) as [Heq | Hne].
      * exists (length xs - 2). right. right. right.
        split; [| reflexivity]. apply Hbelow. lia.
      * exists p. right. left. repeat split; [lia | apply Hbelow; lia |].
        apply Habove. lia.
Qed.
End Evaluator.

(** ** The guards of the fit *)

Section Guards.
Context {num : Type} {N : Number num}.

Lemma interpolate_null (xs ys : option (list num)) :
  xs = None \/ ys = None ->
  interpolate xs ys = Throw (Exception "NullArgumentException").
Proof.
  intros [-> | ->]; [| destruct xs]; reflexivity.
Qed.

Lemma interpolate_mismatch (xs ys : list num) :
  length xs <> length ys ->
  interpolate (Some xs) (Some ys)
  = Throw (Exception "DimensionMismatchException").
Proof.
  intros H. unfold interpolate.
  destruct (Nat.eqb_spec (length xs) (length ys)); [contradiction |].
  reflexivity.
Qed.

Lemma interpolate_too_few (xs ys : list num) :
  length xs = length ys -> length xs < 5 ->
  interpolate (Some xs) (Some ys)
  = Throw (Exception "NumberIsTooSmallException").
Proof.
  intros Hy H. unfold interpolate. rewrite <- Hy, Nat.eqb_refl. cbn [negb].
  unfold MINIMUM_NUMBER_POINTS.
  destruct (Nat.ltb_spec (length xs) 5); [reflexivity | lia].
Qed.

Lemma interpolate_Ok_inv (xs ys : option (list num)) (t : table) :
  interpolate xs ys = Ok t ->
  exists xs' ys', xs = Some xs' /\ ys = Some ys' /\
    length xs' = length ys' /\ 5 <= length xs'.
Proof.
  intros H. destruct xs as [xs' |], ys as [ys' |]; try discriminate H.
  exists xs', ys'. split; [reflexivity |]. split; [reflexivity |].
  destruct (Nat.eq_dec (length xs') (length ys')) as [Hy | Hy].
  - split; [assumption |].
    destruct (Nat.lt_ge_cases (length xs') 5) as [Hn | Hn]; [| assumption].
    rewrite interpolate_too_few in H by assumption. discriminate H.
  - rewrite interpolate_mismatch in H by assumption. discriminate H.
Qed.

Lemma createInterpolator_Ok_inv (xs ys : option (list num))
    (f : num -> result num) :
  createInterpolator xs ys = Ok f ->
  exists xs' ys' t, xs = Some xs' /\ ys = Some ys' /\
    length xs' = length ys' /\ 5 <= length xs' /\
    interpolate xs ys = Ok t /\
    f = (fun x => evaluatePolynomialSegment xs' t x).
Proof.
  unfold createInterpolator. intros H.
  destruct (interpolate xs ys) as [t | e] eqn:Ht; [| discriminate H].
  destruct (interpolate_Ok_inv xs ys t Ht) as (xs' & ys' & -> & -> & Hy & Hn).
  cbn [bind] in H. injection H as <-.
  exists xs', ys', t. repeat split; assumption.
Qed.

Lemma createInterpolator_Throw (xs ys : option (list num)) (e : exception) :
  interpolate xs ys = Throw e -> createInterpolator xs ys = Throw e.
Proof.
  intros H. unfold createInterpolator. now rewrite H.
Qed.
End Guards.

(** C7: [createInterpolator] (the fit) fails with [NullArgumentException]
    when an input array is absent, with [DimensionMismatchException] when the
    two lengths differ, and with [NumberIsTooSmallException] when the common
    length is below five; on two arrays of one length, five or more, it
    returns a function.  The three failures are results of the fit itself,
    fixed by the presence and the lengths of the arrays alone, and a fit
    that fails in [interpolate] returns no function. *)
Theorem fit_guards {num : Type} {N : Number num} :
  (forall xs ys : option (list num), xs = None \/ ys = None ->
     createInterpolator xs ys = Throw (Exception "NullArgumentException")) /\
  (forall xs ys : list num, length xs <> length ys ->
     createInterpolator (Some xs) (Some ys)
     = Throw (Exception "DimensionMismatchException")) /\
  (forall xs ys : list num, length xs = length ys -> length xs < 5 ->
     createInterpolator (Some xs) (Some ys)
     = Throw (Exception "NumberIsTooSmallException")) /\
  (forall xs ys : list num, length xs = length ys -> 5 <= length xs ->
     exists f, createInterpolator (Some xs) (Some ys) = Ok f) /\
  (forall (xs ys : option (list num)) e,
     interpolate xs ys = Throw e -> createInterpolator xs ys = Throw e).
Proof.
  split; [| split; [| split; [| split]]].
  - intros xs ys H. apply createInterpolator_Throw. now apply interpolate_null.
  - intros xs ys H. apply createInterpolator_Throw.
    now apply interpolate_mismatch.
  - intros xs ys Hy H. apply createInterpolator_Throw.
    now apply interpolate_too_few.
  - intros xs ys Hy H.
    destruct (createInterpolator_spec xs ys Hy H) as (t & _ & Hf). eauto.
  - apply createInterpolator_Throw.
Qed.

Lemma fit_guards_witness :
  createInterpolator (Some (floats [1; 2; 3; 4; 5]%Z)) (Some (floats [1; 2; 3]%Z))
  = Throw (Exception "DimensionMismatchException") /\
  createInterpolator (Some (floats [1; 2; 3; 4]%Z)) (Some (floats [1; 2; 3; 4]%Z))
  = Throw (Exception "NumberIsTooSmallException") /\
  createInterpolator None (Some (floats [1; 2; 3; 4; 5]%Z))
  = Throw (Exception "NullArgumentException") /\
  exists f, createInterpolator (Some (floats [1; 2; 3; 4; 5]%Z))
              (Some (floats [3; 1; 4; 1; 5]%Z)) = Ok f.
Proof.
  destruct (@fit_guards float Number_float) as (Hnull & Hmis & Hfew & Hok & _).
  split; [apply Hmis; cbn; lia |].
  split; [apply Hfew; cbn; lia |].
  split; [apply Hnull; now left |].
  apply Hok; cbn; lia.
Defined.

(** ** The exceptions that can be raised *)

Section Raised.
Context {num : Type} {N : Number num}.

Lemma NonMonotonicSequenceException_not_exported :
  ~ In "NonMonotonicSequenceException"%string exports.
Proof.
  cbn. intros H. repeat (destruct H as [H | H]; [discriminate H |]). exact H.
Qed.

Lemma E_new_not_NonMonotonic (cls : string) :
  E_new cls <> Exception "NonMonotonicSequenceException".
Proof.
  intros H. apply E_new_exported in H.
  exact (NonMonotonicSequenceException_not_exported H).
Qed.

Lemma binarySearch_loop_throws (fuel : nat) (a : list num) (key : num) :
  forall low high e,
    binarySearch_loop fuel a key low high = Throw e -> e = Error.
Proof.
  induction fuel as [| fuel IH]; intros low high e; cbn [binarySearch_loop].
  - discriminate.
  - destruct (low <=? high)%Z; [| discriminate].
    destruct (ltb _ key); [apply IH |].
    destruct (ltb key _); [apply IH |].
    destruct (eqb _ key); [discriminate |].
    intros H. now injection H as <-.
Qed.

Lemma evaluatePolynomialSegment_throws (xs : list num) (t : table)
    (x : num) (e : exception) :
  evaluatePolynomialSegment xs t x = Throw e -> e = Error \/ e = TypeError.
Proof.
  unfold evaluatePolynomialSegment, binarySearch.
  destruct (binarySearch_loop _ xs x 0 _) as [m | e'] eqn:Hm; cbn [bind].
  - destruct (get None t _); [discriminate |].
    intros H. injection H as <-. now right.
  - intros H. injection H as <-. left.
    eapply binarySearch_loop_throws. exact Hm.
Qed.

Lemma checkOrder_throws (val : list num) (dir : option Z)
    (strict abort : bool) (e : exception) :
  checkOrder val dir strict abort = Throw e ->
  e = Exception "MathInternalError" \/ e = TypeError.
Proof.
  unfold checkOrder.
  destruct (checkOrder_loop _ strict _ (tl val) 1) as [k | e'] eqn:Hk;
    cbn [bind].
  - destruct (k =? length val); [discriminate |].
    destruct abort; [| discriminate].
    intros H. injection H as <-. now right.
  - intros H. injection H as <-. left.
    apply checkOrder_loop_throws in Hk. exact Hk.
Qed.

Lemma interpolateHermiteSorted_throws (xs ys fd : list num) (e : exception) :
  interpolateHermiteSorted xs ys fd = Throw e -> exists cls, e = E_new cls.
Proof.
  unfold interpolateHermiteSorted.
  destruct (negb _); [intros H; injection H as <-; eauto |].
  destruct (negb _); [intros H; injection H as <-; eauto |].
  destruct (_ <? _); [intros H; injection H as <-; eauto | discriminate].
Qed.

Lemma interpolate_throws (xs ys : option (list num)) (e : exception) :
  interpolate xs ys = Throw e -> exists cls, e = E_new cls.
Proof.
  unfold interpolate.
  destruct xs as [xs |]; [| intros H; injection H as <-; eauto].
  destruct ys as [ys |]; [| intros H; injection H as <-; eauto].
  destruct (negb _); [intros H; injection H as <-; eauto |].
  destruct (_ <? _); [intros H; injection H as <-; eauto |].
  destruct (checkOrder_default_returns xs) as [b ->]. cbn [bind].
  apply interpolateHermiteSorted_throws.
Qed.
End Raised.

(** C10: the classes [exceptions.js] exports are the five listed and
    [NonMonotonicSequenceException] is not one of them; so when [checkOrder]
    finds the order violated (it returns [false] without the abort flag), the
    same call with the abort flag raises the runtime's [TypeError], and no
    function of the library (the order check, the search, the converter, the
    fit, or a fitted function) ever raises a [NonMonotonicSequenceException]. *)
Theorem no_NonMonotonicSequenceException {num : Type} {N : Number num} :
  exports = [ "NullArgumentException"; "DimensionMismatchException";
              "NumberIsTooSmallException"; "OutOfRangeException";
              "MathInternalError" ]%string /\
  (forall (val : list num) dir strict,
     checkOrder val dir strict false = Ok false ->
     checkOrder val dir strict true = Throw TypeError) /\
  (forall (val : list num) dir strict abort,
     checkOrder val dir strict abort
     <> Throw (Exception "NonMonotonicSequenceException")) /\
  (forall (a : list num) key,
     binarySearch a key <> Throw (Exception "NonMonotonicSequenceException")) /\
  (forall xs ys fd : list num,
     interpolateHermiteSorted xs ys fd
     <> Throw (Exception "NonMonotonicSequenceException")) /\
  (forall xs ys : option (list num),
     interpolate xs ys <> Throw (Exception "NonMonotonicSequenceException")) /\
  (forall xs ys : option (list num),
     createInterpolator xs ys
     <> Throw (Exception "NonMonotonicSequenceException")) /\
  (forall (xs ys : option (list num)) f x,
     createInterpolator xs ys = Ok f ->
     f x <> Throw (Exception "NonMonotonicSequenceException")).
Proof.
  split; [reflexivity |].
  split.
  { intros val dir strict. unfold checkOrder.
    destruct (checkOrder_loop _ strict _ (tl val) 1) as [k | e]; cbn [bind];
      [| discriminate].
    destruct (k =? length val); [discriminate | reflexivity]. }
  split.
  { intros val dir strict abort H.
    apply checkOrder_throws in H as [H | H]; discriminate H. }
  split.
  { intros a key H. apply binarySearch_loop_throws in H. discriminate H. }
  split.
  { intros xs ys fd H. apply interpolateHermiteSorted_throws in H as [cls H].
    symmetry in H. exact (E_new_not_NonMonotonic cls H). }
  split.
  { intros xs ys H. apply interpolate_throws in H as [cls H].
    symmetry in H. exact (E_new_not_NonMonotonic cls H). }
  split.
  { intros xs ys H. unfold createInterpolator in H.
    destruct (interpolate xs ys) as [t | e] eqn:Ht; cbn [bind] in H.
    - destruct xs; discriminate H.
    - injection H as ->. apply interpolate_throws in Ht as [cls Ht].
      symmetry in Ht. exact (E_new_not_NonMonotonic cls Ht). }
  intros xs ys f x Hf H.
  apply createInterpolator_Ok_inv in Hf as (xs' & ys' & t & _ & _ & _ & _ & _ & ->).
  apply evaluatePolynomialSegment_throws in H as [H | H]; discriminate H.
Qed.

Lemma no_NonMonotonicSequenceException_witness :
  checkOrder (floats [1; 2; 2; 4; 5]%Z) (Some OrderDirection.INCREASING) true true
  = Throw TypeError.
Proof.
  apply (proj1 (proj2 (@no_NonMonotonicSequenceException float Number_float))).
  vm_compute. reflexivity.
Defined.

(** ** Knots that do not increase *)

(** C1 (the code departs from it): the knots [1, 2, 2, 4, 5] violate the
    strict increasing order, as [checkOrder] itself finds when it is asked
    for the strict check; yet [interpolate] calls [checkOrder(xvals)] with no
    flag, which neither checks strictly nor raises, and drops its result: the
    fit returns a function, over a table in which three segments hold [NaN]. *)
Theorem duplicate_knot_is_accepted :
  checkOrder (floats [1; 2; 2; 4; 5]%Z) (Some OrderDirection.INCREASING)
    true false = Ok false /\
  checkOrder (floats [1; 2; 2; 4; 5]%Z) None false false = Ok true /\
  returns (createInterpolator (Some (floats [1; 2; 2; 4; 5]%Z))
             (Some (floats [1; 2; 3; 4; 5]%Z))) = true /\
  interpolate (Some (floats [1; 2; 2; 4; 5]%Z)) (Some (floats [1; 2; 3; 4; 5]%Z))
  = Ok [ Some [1; nan; nan; nan]; Some [2; nan; nan; nan];
         Some [3; nan; nan; nan];
         Some [4; 0x1.aaaaaaaaaaaaap-1; 0x1.5555555555558p-3; 0] ]%float.
Proof.
  repeat split; vm_compute; reflexivity.
Qed.

(** ** The derivatives at the knots *)

(** C4: in a fit of knots [xs] and values [ys], the derivative at an interior
    knot [i] (from the third knot to the third from the end) is the average
    of the two adjacent slopes weighted by [wP = weight (i+1)] and
    [wM = weight (i-1)], unless both weights are below the machine epsilon,
    when it is the blend of the two slopes by the distances to the
    neighbouring knots; it is the second coefficient of segment [i]. *)
Theorem interior_derivative_formula {num : Type} {N : Number num}
    (xs ys : list num) (t : table) (i : nat) :
  interpolate (Some xs) (Some ys) = Ok t ->
  2 <= i -> i + 3 <= length xs ->
  let wP := weight xs ys (i + 1) in
  let wM := weight xs ys (i - 1) in
  let d :=
    (if (abs wP < EPSILON) && (abs wM < EPSILON)
     then ((xs.[i + 1] - xs.[i]) * diff xs ys (i - 1)
           + (xs.[i] - xs.[i - 1]) * diff xs ys i) / (xs.[i + 1] - xs.[i - 1])
     else (wP * diff xs ys (i - 1) + wM * diff xs ys i) / (wP + wM))%num in
  (firstDerivatives_of xs ys).[i]%num = d /\
  exists c2 c3, get None t i = Some [ys.[i]%num; d; c2; c3].
Proof.
  intros Ht H2 Hn. cbv zeta.
  destruct (interpolate_Ok_inv _ _ _ Ht) as (xs' & ys' & E1 & E2 & Hy & H5).
  injection E1 as <-. injection E2 as <-.
  pose proof (firstDerivatives_of_interior xs ys H5 i ltac:(lia)) as Hd.
  unfold interior_derivative in Hd. cbv zeta in Hd.
  split; [exact Hd |].
  destruct (interpolate_spec xs ys Hy H5) as (t' & Ht' & _ & Hrow).
  rewrite Ht in Ht'. injection Ht' as <-.
  rewrite (Hrow i) by lia. unfold segment. cbv zeta. rewrite Hd. eauto.
Qed.

Lemma interior_derivative_formula_witness :
  ((firstDerivatives_of (floats golden_x) (floats golden_y)).[3])%num
  = 0x1.a0b60b60b60b6p+1%float.
Proof.
  destruct (interpolate (Some (floats golden_x)) (Some (floats golden_y)))
    as [t | e] eqn:Ht; [| vm_compute in Ht; discriminate Ht].
  destruct (interior_derivative_formula (floats golden_x) (floats golden_y) t 3 Ht)
    as [H _]; [lia | cbn; lia |].
  cbv zeta in H. rewrite H. vm_compute. reflexivity.
Defined.

(** ** Three-point differentiation, in exact arithmetic *)

Ltac to_Q :=
  cbn [add sub mul div abs of_Z EPSILON Number_Q] in *;
  change (inject_Z 2) with 2%Q in *; change (inject_Z 3) with 3%Q in *;
  change (inject_Z 0) with 0%Q in *.

Section ThreePoint.
Local Open Scope Q_scope.
Variables xs ys : list Q.
Variables i i0 i1 i2 : nat.

Let y0 := get NaN ys i0.
Let y1 := get NaN ys i1.
Let y2 := get NaN ys i2.
Let t := get NaN xs i - get NaN xs i0.
Let t1 := get NaN xs i1 - get NaN xs i0.
Let t2 := get NaN xs i2 - get NaN xs i0.

Hypothesis distinct01 : ~ get NaN xs i0 == get NaN xs i1.
Hypothesis distinct02 : ~ get NaN xs i0 == get NaN xs i2.
Hypothesis distinct12 : ~ get NaN xs i1 == get NaN xs i2.

Lemma differentiateThreePoint_quadratic :
  exists a b : Q,
    y1 == y0 + b * t1 + a * t1 ^ 2 /\
    y2 == y0 + b * t2 + a * t2 ^ 2 /\
    differentiateThreePoint xs ys i i0 i1 i2 == 2 * a * t + b /\
    forall a' b' : Q,
      y1 == y0 + b' * t1 + a' * t1 ^ 2 ->
      y2 == y0 + b' * t2 + a' * t2 ^ 2 ->
      a' == a /\ b' == b.
Proof.
  assert (H1 : ~ t1 == 0) by (subst t1; lra).
  assert (H2 : ~ t2 == 0) by (subst t2; lra).
  assert (H3 : ~ t2 - t1 == 0) by (subst t1 t2; lra).
  unfold differentiateThreePoint. cbv zeta. to_Q.
  fold y0 y1 y2 t t1 t2.
  clearbody y0 y1 y2 t t1 t2.
  exists ((y2 - y0 - t2 / t1 * (y1 - y0)) / (t2 * t2 - t1 * t2)).
  exists ((y1 - y0
           - (y2 - y0 - t2 / t1 * (y1 - y0)) / (t2 * t2 - t1 * t2) * t1 * t1)
          / t1).
  assert (H4 : ~ t2 * t2 - t1 * t2 == 0).
  { intros E. apply H3.
    assert (E' : (t2 - t1) * t2 == 0) by (rewrite <- E; ring).
    apply Qmult_integral in E'. tauto. }
  split; [field; tauto |]. split; [field; tauto |].
  split; [reflexivity |].
  intros a' b' E1 E2. rewrite E1, E2. split; field; tauto.
Qed.
End ThreePoint.

(** C5: in every fit (two arrays of one length, five or more) the
    derivatives at the knots [0], [1], [n-2] and [n-1] are those of
    [differentiateThreePoint] on the samples [0, 1, 2] (low end) and
    [n-3, n-2, n-1] (high end), taken at the knot itself, and they are the
    derivatives that the rows [0], [1] and [n-2] of the table are built
    from; and on three samples of the arrays with distinct abscissas, in
    exact arithmetic,
    [differentiateThreePoint] returns [2*a*t + b] at the offset [t] of the
    knot from the first sample, where [y = y0 + b*t + a*t^2] is the one
    quadratic through the three samples. *)
Theorem boundary_derivatives_three_point :
  (forall (num : Type) (N : Number num) (xs ys : list num),
     length xs = length ys -> 5 <= length xs ->
     let n := length xs in
     let fd := firstDerivatives_of xs ys in
     let d0 := differentiateThreePoint xs ys 0 0 1 2 in
     let d1 := differentiateThreePoint xs ys 1 0 1 2 in
     let dm := differentiateThreePoint xs ys (n - 2) (n - 3) (n - 2) (n - 1) in
     let dn := differentiateThreePoint xs ys (n - 1) (n - 3) (n - 2) (n - 1) in
     length fd = n /\
     (fd.[0] = d0 /\ fd.[1] = d1 /\ fd.[n - 2] = dm /\ fd.[n - 1] = dn)%num /\
     exists t, interpolate (Some xs) (Some ys) = Ok t /\
       get None t 0
       = Some (let w := xs.[1] - xs.[0] in
               [ ys.[0]; d0;
                 (of_Z 3 * (ys.[1] - ys.[0]) / w - of_Z 2 * d0 - d1) / w;
                 (of_Z 2 * (ys.[0] - ys.[1]) / w + d0 + d1) / (w * w) ])%num /\
       (exists c2 c3, get None t 1 = Some [ys.[1]%num; d1; c2; c3]) /\
       get None t (n - 2)
       = Some (let w := xs.[n - 1] - xs.[n - 2] in
               [ ys.[n - 2]; dm;
                 (of_Z 3 * (ys.[n - 1] - ys.[n - 2]) / w - of_Z 2 * dm - dn) / w;
                 (of_Z 2 * (ys.[n - 2] - ys.[n - 1]) / w + dm + dn) / (w * w) ])%num)
  /\
  (forall (xs ys : list Q) (i i0 i1 i2 : nat),
     length xs = length ys ->
     i < length xs -> i0 < length xs -> i1 < length xs -> i2 < length xs ->
     let y0 := ys.[i0]%num in
     let y1 := ys.[i1]%num in
     let y2 := ys.[i2]%num in
     let t := (xs.[i]%num - xs.[i0]%num)%Q in
     let t1 := (xs.[i1]%num - xs.[i0]%num)%Q in
     let t2 := (xs.[i2]%num - xs.[i0]%num)%Q in
     ~ (xs.[i0]%num == xs.[i1]%num)%Q ->
     ~ (xs.[i0]%num == xs.[i2]%num)%Q ->
     ~ (xs.[i1]%num == xs.[i2]%num)%Q ->
     exists a b : Q,
       (y1 == y0 + b * t1 + a * t1 ^ 2)%Q /\
       (y2 == y0 + b * t2 + a * t2 ^ 2)%Q /\
       (differentiateThreePoint xs ys i i0 i1 i2 == 2 * a * t + b)%Q /\
       forall a' b' : Q,
         (y1 == y0 + b' * t1 + a' * t1 ^ 2)%Q ->
         (y2 == y0 + b' * t2 + a' * t2 ^ 2)%Q ->
         (a' == a /\ b' == b)%Q).
Proof.
  split.
  - intros num N xs ys Hy H5. cbv zeta.
    destruct (firstDerivatives_of_boundary xs ys H5) as (B0 & B1 & B2 & B3).
    split; [now apply length_firstDerivatives_of |].
    split; [repeat split; assumption |].
    destruct (interpolate_spec xs ys Hy H5) as (t & Ht & _ & Hrow).
    exists t. split; [exact Ht |].
    split; [| split].
    + rewrite (Hrow 0) by lia. unfold segment. cbv zeta.
      change (0 + 1) with 1. now rewrite B0, B1.
    + rewrite (Hrow 1) by lia. unfold segment. cbv zeta.
      rewrite B1. eauto.
    + rewrite (Hrow (length xs - 2)) by lia. unfold segment. cbv zeta.
      replace (length xs - 2 + 1) with (length xs - 1) by lia.
      now rewrite B2, B3.
  - intros xs ys i i0 i1 i2 _ _ _ _ _. cbv zeta.
    apply differentiateThreePoint_quadratic.
Qed.

Lemma boundary_derivatives_three_point_witness :
  (length (firstDerivatives_of (floats golden_x) (floats golden_y)) = 8 /\
   (firstDerivatives_of (floats golden_x) (floats golden_y)).[0]%num
   = differentiateThreePoint (floats golden_x) (floats golden_y) 0 0 1 2 /\
   (firstDerivatives_of (floats golden_x) (floats golden_y)).[7]%num
   = differentiateThreePoint (floats golden_x) (floats golden_y) 7 5 6 7 /\
   exists t c2 c3,
     interpolate (Some (floats golden_x)) (Some (floats golden_y)) = Ok t /\
     get None t 1
     = Some [10%float;
             differentiateThreePoint (floats golden_x) (floats golden_y) 1 0 1 2;
             c2; c3]) /\
  exists a b : Q,
    (10 == 40 + b * 10 + a * 10 ^ 2)%Q /\
    (17 == 40 + b * 20 + a * 20 ^ 2)%Q /\
    (differentiateThreePoint (rationals golden_x) (rationals golden_y) 1 0 1 2
     == 2 * a * 10 + b)%Q.
Proof.
  split.
  - destruct (proj1 boundary_derivatives_three_point float Number_float
                (floats golden_x) (floats golden_y) eq_refl ltac:(cbn; lia))
      as (Hlen & (B0 & _ & _ & B3) & t & Ht & _ & (c2 & c3 & Hrow) & _).
    split; [exact Hlen |]. split; [exact B0 |]. split; [exact B3 |].
    exists t, c2, c3. split; [exact Ht | exact Hrow].
  - destruct (proj2 boundary_derivatives_three_point
                (rationals golden_x) (rationals golden_y) 1%nat 0%nat 1%nat 2%nat)
      as (a & b & H1 & H2 & H3 & _);
      try (intros H; vm_compute in H; discriminate H);
      try reflexivity; try (cbn; lia).
    exists a, b. repeat split; assumption.
Defined.

(** ** Binary64: a polynomial at offset zero *)

Lemma is_finite_spec (x : float) : is_finite x = sf_finite (Prim2SF x).
Proof.
  unfold is_finite, is_nan, is_infinity.
  rewrite !FloatAxioms.eqb_spec, FloatAxioms.abs_spec.
  change (Prim2SF infinity) with (S754_infinity false).
  unfold SFeqb, SFcompare, SFabs.
  destruct (Prim2SF x) as [s | s | | s m e]; cbn.
  - now destruct s.
  - now destruct s.
  - reflexivity.
  - rewrite Z.compare_refl, Pos.compare_cont_refl. now destruct s.
Qed.

Lemma sf_finite_number (x : float) :
  sf_finite (Prim2SF x) = true -> PrimFloat.eqb x x = true.
Proof.
  rewrite FloatAxioms.eqb_spec. unfold SFeqb, SFcompare.
  destruct (Prim2SF x) as [s | s | | s m e]; cbn;
    try discriminate; try reflexivity.
  intros _. rewrite Z.compare_refl, Pos.compare_cont_refl. now destruct s.
Qed.

(** A finite number minus itself is a zero. *)
Lemma sub_self_zero (x : float) :
  sf_finite (Prim2SF x) = true -> sf_zero (Prim2SF (x - x)) = true.
Proof.
  rewrite FloatAxioms.sub_spec. unfold SF64sub, SFsub.
  destruct (Prim2SF x) as [s | s | | s m e]; cbn -[Z.sub]; try discriminate.
  - now destruct s.
  - intros _. rewrite Z.min_id, Z.sub_diag. reflexivity.
Qed.

(** A zero times a finite number is a zero. *)
Lemma mul_zero_finite (t v : float) :
  sf_zero (Prim2SF t) = true -> sf_finite (Prim2SF v) = true ->
  sf_zero (Prim2SF (t * v)) = true.
Proof.
  rewrite FloatAxioms.mul_spec. unfold SF64mul, SFmul.
  destruct (Prim2SF t) as [s | s | | s m e]; try discriminate.
  destruct (Prim2SF v) as [s' | s' | | s' m' e']; try discriminate;
    reflexivity.
Qed.

(** A zero plus a number is that number, up to the sign of a zero. *)
Lemma add_zero_number (z d : float) :
  sf_zero (Prim2SF z) = true -> PrimFloat.eqb d d = true ->
  PrimFloat.eqb (z + d) d = true /\
  (sf_finite (Prim2SF d) = true -> sf_finite (Prim2SF (z + d)) = true).
Proof.
  rewrite !FloatAxioms.eqb_spec, FloatAxioms.add_spec. unfold SF64add, SFadd.
  destruct (Prim2SF z) as [s | s | | s m e]; try discriminate.
  intros _.
  destruct (Prim2SF d) as [s' | s' | | s' m' e']; intros Hd;
    try (split; [exact Hd | intros H; exact H]).
  destruct s, s'; split; reflexivity.
Qed.

(** One step of Horner's scheme at offset zero yields the coefficient it
    adds. *)
Lemma horner_step_at_zero (t v c : float) :
  sf_zero (Prim2SF t) = true -> is_finite v = true -> is_finite c = true ->
  is_finite (t * v + c) = true /\ PrimFloat.eqb (t * v + c) c = true.
Proof.
  rewrite !is_finite_spec. intros Ht Hv Hc.
  destruct (add_zero_number (t * v) c (mul_zero_finite t v Ht Hv)
              (sf_finite_number c Hc)) as [He Hf].
  split; [now apply Hf | exact He].
Qed.

Lemma cubic_at_knot (x c0 c1 c2 c3 : float) :
  is_finite x = true -> forallb is_finite [c0; c1; c2; c3] = true ->
  PrimFloat.eqb (segment_value [c0; c1; c2; c3] x x) c0 = true /\
  is_finite (segment_value [c0; c1; c2; c3] x x) = true.
Proof.
  intros Hx Hc. cbn [forallb] in Hc.
  apply andb_prop in Hc as [H0 Hc]. apply andb_prop in Hc as [H1 Hc].
  apply andb_prop in Hc as [H2 Hc]. apply andb_prop in Hc as [H3 _].
  rewrite is_finite_spec in Hx. pose proof (sub_self_zero x Hx) as Ht.
  unfold segment_value, evaluatePolynomial.
  cbn [rev app fold_left add sub mul Number_float].
  destruct (horner_step_at_zero (x - x) c3 c2 Ht H3 H2) as [F2 _].
  destruct (horner_step_at_zero (x - x) _ c1 Ht F2 H1) as [F1 _].
  destruct (horner_step_at_zero (x - x) _ c0 Ht F1 H0) as [F0 E0].
  split; assumption.
Qed.

Lemma quadratic_at_knot (x c0 c1 c2 : float) :
  is_finite x = true -> forallb is_finite [c0; c1; c2] = true ->
  PrimFloat.eqb (evaluatePolynomial [c0; c1; c2] (x - x)%float) c0 = true.
Proof.
  intros Hx Hc. cbn [forallb] in Hc.
  apply andb_prop in Hc as [H0 Hc]. apply andb_prop in Hc as [H1 Hc].
  apply andb_prop in Hc as [H2 _].
  rewrite is_finite_spec in Hx. pose proof (sub_self_zero x Hx) as Ht.
  unfold evaluatePolynomial.
  cbn [rev app fold_left add sub mul Number_float].
  destruct (horner_step_at_zero (x - x) c2 c1 Ht H2 H1) as [F1 _].
  destruct (horner_step_at_zero (x - x) _ c0 Ht F1 H0) as [_ E0].
  exact E0.
Qed.

(** ** The Hermite segments, in exact arithmetic *)

Section HermiteExact.
Local Open Scope Q_scope.
Variables xs ys fd : list Q.
Variable i : nat.
Hypothesis distinct : ~ get NaN xs i == get NaN xs (i + 1).

Let c := segment xs ys fd i.

Lemma segment_left_value :
  segment_value c (get NaN xs i) (get NaN xs i) == get NaN ys i.
Proof.
  subst c. unfold segment_value, segment, evaluatePolynomial.
  cbn [rev app fold_left]. to_Q. field. lra.
Qed.

Lemma segment_right_value :
  segment_value c (get NaN xs i) (get NaN xs (i + 1)) == get NaN ys (i + 1).
Proof.
  subst c. unfold segment_value, segment, evaluatePolynomial.
  cbn [rev app fold_left]. to_Q. field. lra.
Qed.

Lemma segment_left_slope :
  segment_slope c (get NaN xs i) (get NaN xs i) == get NaN fd i.
Proof.
  subst c. unfold segment_slope, derivative, segment, evaluatePolynomial.
  cbn [rev app fold_left get nth]. to_Q. field. lra.
Qed.

Lemma segment_right_slope :
  segment_slope c (get NaN xs i) (get NaN xs (i + 1)) == get NaN fd (i + 1).
Proof.
  subst c. unfold segment_slope, derivative, segment, evaluatePolynomial.
  cbn [rev app fold_left get nth]. to_Q. field. lra.
Qed.
End HermiteExact.

Lemma increasing_distinct (xs : list Q) (i : nat) :
  strictly_increasing xs -> i + 1 < length xs ->
  ~ (get NaN xs i == get NaN xs (i + 1))%Q.
Proof.
  intros Hs Hi E. specialize (Hs i Hi). apply Q_lt_iff in Hs. lra.
Qed.

(** C3: in exact arithmetic, in every fit of strictly increasing knots, the
    polynomial of every segment [i] takes the values [ys[i]] and [ys[i+1]]
    at the two knots of the segment and has the computed derivatives
    [fd[i]] and [fd[i+1]] there; hence at every interior knot the two
    adjacent segments agree in value and in slope.  In binary64 arithmetic,
    in every fit, row [i] of the table starts with [ys[i]] and [fd[i]], and
    at a finite knot [xs[i]] the polynomial of segment [i] takes a value
    equal to [ys[i]] when its four coefficients are finite, and has a slope
    equal to [fd[i]] when the three coefficients of its derivative are
    finite. *)
Theorem segments_interpolate_values_and_slopes :
  (forall xs ys : list Q,
     length xs = length ys -> 5 <= length xs -> strictly_increasing xs ->
     let fd := firstDerivatives_of xs ys in
     exists t, interpolate (Some xs) (Some ys) = Ok t /\
       (forall i, i + 1 < length xs ->
          exists c, get None t i = Some c /\
            (segment_value c xs.[i]%num xs.[i]%num == ys.[i]%num)%Q /\
            (segment_value c xs.[i]%num xs.[i + 1]%num == ys.[i + 1]%num)%Q /\
            (segment_slope c xs.[i]%num xs.[i]%num == fd.[i]%num)%Q /\
            (segment_slope c xs.[i]%num xs.[i + 1]%num == fd.[i + 1]%num)%Q) /\
       (forall i, 1 <= i -> i + 1 < length xs ->
          exists c c', get None t (i - 1) = Some c /\ get None t i = Some c' /\
            (segment_value c xs.[i - 1]%num xs.[i]%num
             == segment_value c' xs.[i]%num xs.[i]%num)%Q /\
            (segment_slope c xs.[i - 1]%num xs.[i]%num
             == segment_slope c' xs.[i]%num xs.[i]%num)%Q)) /\
  (forall xs ys : list float,
     length xs = length ys -> 5 <= length xs ->
     let fd := firstDerivatives_of xs ys in
     exists t, interpolate (Some xs) (Some ys) = Ok t /\
       forall i, i + 1 < length xs ->
         exists c, get None t i = Some c /\
           c.[0]%num = ys.[i]%num /\ c.[1]%num = fd.[i]%num /\
           (is_finite xs.[i]%num = true -> forallb is_finite c = true ->
            PrimFloat.eqb (segment_value c xs.[i]%num xs.[i]%num) ys.[i]%num
            = true) /\
           (is_finite xs.[i]%num = true ->
            forallb is_finite (derivative c) = true ->
            PrimFloat.eqb (segment_slope c xs.[i]%num xs.[i]%num) fd.[i]%num
            = true)).
Proof.
  split.
  - intros xs ys Hy H5 Hs. cbv zeta.
    destruct (interpolate_spec xs ys Hy H5) as (t & Ht & _ & Hrow).
    exists t. split; [exact Ht |].
    assert (Hseg : forall i, i + 1 < length xs ->
      exists c, get None t i = Some c /\
        (segment_value c xs.[i]%num xs.[i]%num == ys.[i]%num)%Q /\
        (segment_value c xs.[i]%num xs.[i + 1]%num == ys.[i + 1]%num)%Q /\
        (segment_slope c xs.[i]%num xs.[i]%num
         == (firstDerivatives_of xs ys).[i]%num)%Q /\
        (segment_slope c xs.[i]%num xs.[i + 1]%num
         == (firstDerivatives_of xs ys).[i + 1]%num)%Q).
    { intros i Hi. pose proof (increasing_distinct xs i Hs Hi) as Hd.
      eexists. split; [apply Hrow; lia |].
      split; [now apply segment_left_value |].
      split; [now apply segment_right_value |].
      split; [now apply segment_left_slope | now apply segment_right_slope]. }
    split; [exact Hseg |].
    intros i H1 Hi.
    destruct (Hseg (i - 1)%nat ltac:(lia)) as (c & Hc & _ & Hv & _ & Hd).
    destruct (Hseg i Hi) as (c' & Hc' & Hv' & _ & Hd' & _).
    replace (i - 1 + 1)%nat with i in * by lia.
    exists c, c'. split; [assumption |]. split; [assumption |].
    split; [now rewrite Hv, Hv' | now rewrite Hd, Hd'].
  - intros xs ys Hy H5. cbv zeta.
    destruct (interpolate_spec xs ys Hy H5) as (t & Ht & _ & Hrow).
    exists t. split; [exact Ht |].
    intros i Hi. eexists. split; [apply Hrow; lia |].
    unfold segment. cbv zeta.
    split; [reflexivity |]. split; [reflexivity |]. split.
    + intros Hx Hc. now apply cubic_at_knot.
    + intros Hx Hc. unfold segment_slope, derivative in *.
      cbn [get nth] in *. now apply quadratic_at_knot.
Qed.

Lemma segments_interpolate_values_and_slopes_witness :
  (exists t c c',
     interpolate (Some (rationals golden_x)) (Some (rationals golden_y)) = Ok t /\
     get None t 1 = Some c /\ get None t 2 = Some c' /\
     (segment_value c 20 20 == 10)%Q /\ (segment_value c 20 30 == 17)%Q /\
     (segment_value c 20 30 == segment_value c' 30 30)%Q /\
     (segment_slope c 20 30 == segment_slope c' 30 30)%Q) /\
  (exists t c,
     interpolate (Some (floats golden_x)) (Some (floats golden_y)) = Ok t /\
     get None t 2 = Some c /\
     PrimFloat.eqb (segment_value c 30 30)%float 17 = true /\
     PrimFloat.eqb (segment_slope c 30 30)%float
       (firstDerivatives_of (floats golden_x) (floats golden_y)).[2]%num = true).
Proof.
  split.
  - assert (Hs : strictly_increasing (rationals golden_x)).
    { intros i Hi. cbn in Hi.
      do 7 (destruct i as [| i]; [vm_compute; reflexivity |]). lia. }
    destruct (proj1 segments_interpolate_values_and_slopes
                (rationals golden_x) (rationals golden_y)
                eq_refl ltac:(cbn; lia) Hs) as (t & Ht & Hseg & Hadj).
    destruct (Hseg 1%nat ltac:(cbn; lia)) as (c & Hc & Hl & Hr & _).
    destruct (Hadj 2%nat ltac:(lia) ltac:(cbn; lia))
      as (c1 & c' & Hc1 & Hc' & Hv & Hd).
    change (2 - 1)%nat with 1%nat in Hc1. rewrite Hc in Hc1.
    injection Hc1 as <-.
    exists t, c, c'. repeat split; assumption.
  - destruct (proj2 segments_interpolate_values_and_slopes
                (floats golden_x) (floats golden_y) eq_refl ltac:(cbn; lia))
      as (t & Ht & Hrow).
    destruct (Hrow 2%nat ltac:(cbn; lia)) as (c & Hc & _ & _ & Hv & Hd).
    exists t, c. split; [exact Ht |]. split; [exact Hc |].
    pose proof Ht as Et. vm_compute in Et. injection Et as Et. subst t.
    pose proof Hc as Ec. vm_compute in Ec. injection Ec as Ec. subst c.
    split; [apply Hv | apply Hd]; vm_compute; reflexivity.
Defined.

(** C3 as stated fails in binary64: the knots 0, 1, 2, 3, 4 increase
    strictly, the values are finite and the fit succeeds, but the slopes
    between the values overflow: the polynomial of segment 1 misses the
    value at each of its two knots, and differs from the polynomial of
    segment 2, in value and in slope, at their common knot. *)
Lemma overflowing_segments_miss_the_values :
  strictly_increasing overflow_x /\
  forallb is_finite overflow_x = true /\
  forallb is_finite overflow_y = true /\
  exists t c c',
    interpolate (Some overflow_x) (Some overflow_y) = Ok t /\
    get None t 1 = Some c /\ get None t 2 = Some c' /\
    PrimFloat.eqb (segment_value c 1 1)%float overflow_y.[1]%num = false /\
    PrimFloat.eqb (segment_value c 1 2)%float overflow_y.[2]%num = false /\
    PrimFloat.eqb (segment_value c 1 2)%float (segment_value c' 2 2)%float = false /\
    PrimFloat.eqb (segment_slope c 1 2)%float (segment_slope c' 2 2)%float = false.
Proof.
  split.
  { intros i Hi. cbn in Hi.
    do 4 (destruct i as [| i]; [vm_compute; reflexivity |]). lia. }
  split; [vm_compute; reflexivity |]. split; [vm_compute; reflexivity |].
  do 3 eexists.
  split; [vm_compute; reflexivity |].
  split; [vm_compute; reflexivity |].
  split; [vm_compute; reflexivity |].
  repeat split; vm_compute; reflexivity.
Qed.

(** Rounding alone does it too: on the knots 0, 1, 3, 6, 10, 17 and the
    values 0, 1, 3, 2, 7, 1 every coefficient of the table is finite, yet
    the polynomial of segment 2 misses the value 2 at its right knot, and
    the segments 2 and 3 differ in value and in slope at their common knot;
    the fitted function does not return the value 1 at the last knot. *)
Lemma right_knot_is_rounded :
  strictly_increasing rounding_x /\
  exists t c c',
    interpolate (Some rounding_x) (Some rounding_y) = Ok t /\
    forallb (fun row => match row with
                        | Some c => forallb is_finite c
                        | None => false
                        end) t = true /\
    get None t 2 = Some c /\ get None t 3 = Some c' /\
    PrimFloat.eqb (segment_value c 3 6)%float 2 = false /\
    PrimFloat.eqb (segment_value c 3 6)%float (segment_value c' 6 6)%float = false /\
    PrimFloat.eqb (segment_slope c 3 6)%float (segment_slope c' 6 6)%float = false /\
    same_result (fit_and_evaluate (Some rounding_x) (Some rounding_y) 17%float)
      (Ok 1%float) = false.
Proof.
  split.
  { intros i Hi. cbn in Hi.
    do 5 (destruct i as [| i]; [vm_compute; reflexivity |]). lia. }
  do 3 eexists.
  split; [vm_compute; reflexivity |].
  split; [vm_compute; reflexivity |].
  split; [vm_compute; reflexivity |].
  split; [vm_compute; reflexivity |].
  repeat split; vm_compute; reflexivity.
Qed.

(** ** The fitted function *)

Lemma golden_x_increasing_float : strictly_increasing (floats golden_x).
Proof.
  intros i Hi. cbn in Hi.
  do 7 (destruct i as [| i]; [vm_compute; reflexivity |]). lia.
Qed.

Lemma golden_x_increasing_Q : strictly_increasing (rationals golden_x).
Proof.
  intros i Hi. cbn in Hi.
  do 7 (destruct i as [| i]; [vm_compute; reflexivity |]). lia.
Qed.

Section Fitted.
Context {num : Type} {N : Number num} {L : NumberLaws num}.

Variables xs ys : list num.
Variable f : num -> result num.
Hypothesis fitted : createInterpolator (Some xs) (Some ys) = Ok f.
Hypothesis small : (Z.of_nat (length xs) <= 2 ^ 31)%Z.

Lemma fitted_inv :
  length xs = length ys /\ 5 <= length xs /\
  exists t, interpolate (Some xs) (Some ys) = Ok t /\
    length t = length xs - 1 /\
    (forall i, i < length xs - 1 ->
       get None t i = Some (segment xs ys (firstDerivatives_of xs ys) i)) /\
    f = (fun x => evaluatePolynomialSegment xs t x).
Proof.
  destruct (createInterpolator_Ok_inv _ _ _ fitted)
    as (xs' & ys' & t & E1 & E2 & Hy & H5 & Ht & Hf).
  injection E1 as <-. injection E2 as <-.
  split; [assumption |]. split; [assumption |].
  destruct (interpolate_spec xs ys Hy H5) as (t' & Ht' & Hlen & Hrow).
  rewrite Ht in Ht'. injection Ht' as <-.
  exists t. repeat split; assumption.
Qed.

(** On strictly increasing knots the fitted function evaluates the
    segment that the query selects. *)
Lemma fitted_selects (x : num) (k : nat) :
  strictly_increasing xs -> selects xs x k ->
  k < length xs - 1 /\
  f x = Ok (segment_value (segment xs ys (firstDerivatives_of xs ys) k)
              (xs.[k])%num x).
Proof.
  intros Hs Hsel.
  destruct fitted_inv as (Hy & H5 & t & Ht & Hlen & Hrow & ->).
  destruct (segment_index xs small ltac:(lia) Hs x k Hsel) as (_ & _ & _ & Hk).
  split; [assumption |].
  apply (evaluatePolynomialSegment_selects xs small ltac:(lia) Hs);
    [assumption | assumption | now apply Hrow].
Qed.

(** Over knots that are numbers the fitted function returns a value for
    every query that is a number. *)
Lemma fitted_returns (x : num) :
  (forall i, i < length xs -> is_number (xs.[i])%num) ->
  is_number x -> exists v, f x = Ok v.
Proof.
  intros Hnum Hx.
  destruct fitted_inv as (Hy & H5 & t & Ht & Hlen & Hrow & ->).
  unfold evaluatePolynomialSegment, binarySearch.
  destruct (binarySearch_loop_returns xs x small Hnum Hx (length xs) 0
              (Z.of_nat (length xs) - 1)) as [m ->]; [lia | lia |].
  cbn [bind].
  rewrite Hrow; [eauto |]. rewrite Hlen.
  fold (clamp (length xs - 1) m). unfold clamp. lia.
Qed.

(** A query that is not a number makes the search raise its [Error]. *)
Lemma fitted_NaN (x : num) : ~ is_number x -> f x = Throw Error.
Proof.
  intros Hx.
  destruct fitted_inv as (Hy & H5 & t & Ht & Hlen & Hrow & ->).
  unfold evaluatePolynomialSegment, binarySearch.
  destruct (length xs) as [| n] eqn:Hn; [lia |]. cbn [binarySearch_loop].
  destruct (Z.leb_spec 0 (Z.of_nat (S n) - 1)); [| lia].
  destruct (ltb _ x) eqn:H1; [apply ltb_number in H1; tauto |].
  destruct (ltb x _) eqn:H2; [apply ltb_number in H2; tauto |].
  destruct (eqb _ x) eqn:H3; [apply eqb_number in H3; tauto |].
  reflexivity.
Qed.
End Fitted.

(** C6: the function fitted on strictly increasing knots evaluates, by
    Horner's scheme at the offset of the query from the first knot of the
    segment, the four coefficients of the segment that the query selects:
    for a query equal to knot [j] segment [j], or the last segment when [j]
    is the last knot; for a query between two adjacent knots the segment
    between them; for a query below the first knot segment [0], and for one
    above the last knot the last segment [n-2]. *)
Theorem evaluate_selected_segment {num : Type} {N : Number num}
    {L : NumberLaws num} (xs ys : list num) (f : num -> result num)
    (t : table) (x : num) (k : nat) :
  createInterpolator (Some xs) (Some ys) = Ok f ->
  interpolate (Some xs) (Some ys) = Ok t ->
  strictly_increasing xs ->
  (Z.of_nat (length xs) <= 2 ^ 31)%Z ->
  (exists j, j < length xs /\ (xs.[j] == x)%num = true /\
             k = Nat.min j (length xs - 2))
  \/ (k + 1 < length xs /\ (xs.[k] < x)%num = true /\ (x < xs.[k + 1])%num = true)
  \/ ((x < xs.[0])%num = true /\ k = 0)
  \/ ((xs.[length xs - 1] < x)%num = true /\ k = length xs - 2) ->
  exists c0 c1 c2 c3,
    get None t k = Some [c0; c1; c2; c3] /\
    f x = Ok (let dx := (x - xs.[k])%num in
              (((c3 * dx + c2) * dx + c1) * dx + c0)%num).
Proof.
  intros Hf Ht Hs Hsmall Hsel.
  destruct (fitted_selects xs ys f Hf Hsmall x k Hs Hsel) as [Hk Hfx].
  destruct (fitted_inv xs ys f Hf) as (_ & _ & t' & Ht' & _ & Hrow & _).
  rewrite Ht in Ht'. injection Ht' as <-.
  specialize (Hrow k Hk). unfold segment in Hrow. cbv zeta in Hrow.
  do 4 eexists. split; [exact Hrow |].
  rewrite Hfx. unfold segment_value, segment. cbv zeta.
  now rewrite evaluatePolynomial_cubic.
Qed.

Lemma evaluate_selected_segment_witness :
  exists c0 c1 c2 c3 : float,
    fit_and_evaluate (Some (floats golden_x)) (Some (floats golden_y)) 100%float
    = Ok (let dx := (100 - 70)%float in
          (((c3 * dx + c2) * dx + c1) * dx + c0)%float).
Proof.
  destruct (createInterpolator (Some (floats golden_x)) (Some (floats golden_y)))
    as [f | e] eqn:Hf; [| vm_compute in Hf; discriminate Hf].
  destruct (interpolate (Some (floats golden_x)) (Some (floats golden_y)))
    as [t | e] eqn:Ht; [| vm_compute in Ht; discriminate Ht].
  destruct (evaluate_selected_segment (floats golden_x) (floats golden_y) f t
              100%float 6 Hf Ht golden_x_increasing_float)
    as (c0 & c1 & c2 & c3 & _ & H).
  - vm_compute. discriminate.
  - right. right. right. split; reflexivity.
  - exists c0, c1, c2, c3. unfold fit_and_evaluate. rewrite Hf. exact H.
Defined.

(** C8, as the code has it: a function fitted on knots that are numbers (as
    strictly increasing knots are) returns a value for every query that is a
    number, inside the range of the knots or outside it; for a query that is
    not a number ([NaN]) the search raises its [Error]. *)
Theorem evaluate_total_on_numbers {num : Type} {N : Number num}
    {L : NumberLaws num} (xs ys : list num) (f : num -> result num) :
  createInterpolator (Some xs) (Some ys) = Ok f ->
  (Z.of_nat (length xs) <= 2 ^ 31)%Z ->
  (forall i, i < length xs -> is_number (xs.[i])%num) ->
  forall x, (is_number x -> exists v, f x = Ok v) /\
            (~ is_number x -> f x = Throw Error).
Proof.
  intros Hf Hsmall Hnum x. split.
  - now apply (fitted_returns xs ys f Hf Hsmall).
  - now apply (fitted_NaN xs ys f Hf).
Qed.

Lemma evaluate_total_on_numbers_witness :
  (exists v, fit_and_evaluate (Some (floats golden_x)) (Some (floats golden_y))
               (-5)%float = Ok v) /\
  fit_and_evaluate (Some (floats golden_x)) (Some (floats golden_y)) nan
  = Throw Error.
Proof.
  destruct (createInterpolator (Some (floats golden_x)) (Some (floats golden_y)))
    as [f | e] eqn:Hf; [| vm_compute in Hf; discriminate Hf].
  assert (Hnum : forall i, i < length (floats golden_x) ->
                           is_number ((floats golden_x).[i])%num).
  { intros i Hi. cbn in Hi.
    do 8 (destruct i as [| i]; [vm_compute; reflexivity |]). lia. }
  assert (Hsmall : (Z.of_nat (length (floats golden_x)) <= 2 ^ 31)%Z)
    by (vm_compute; discriminate).
  unfold fit_and_evaluate. rewrite Hf. cbn [bind]. split.
  - apply (evaluate_total_on_numbers (floats golden_x) (floats golden_y) f Hf
             Hsmall Hnum (-5)%float).
    vm_compute. reflexivity.
  - apply (evaluate_total_on_numbers (floats golden_x) (floats golden_y) f Hf
             Hsmall Hnum nan).
    vm_compute. discriminate.
Defined.

(** C8 as stated fails: the fit of the README's data succeeds, and the
    fitted function raises an [Error] on the query [NaN]. *)
Lemma evaluate_raises_on_NaN :
  returns (createInterpolator (Some (floats golden_x)) (Some (floats golden_y)))
  = true /\
  fit_and_evaluate (Some (floats golden_x)) (Some (floats golden_y)) nan
  = Throw Error.
Proof.
  split; vm_compute; reflexivity.
Qed.

(** C2: in exact arithmetic, the function fitted on five or more strictly
    increasing knots returns [ys[i]] at every knot [xs[i]]; in binary64
    arithmetic, the function fitted on five or more strictly increasing
    knots returns, at every finite knot [xs[i]] but the last whose segment
    has four finite coefficients, a finite value equal to [ys[i]]; and in
    binary64 arithmetic, on the README's data, the fit succeeds, the fitted
    function returns exactly [ys[i]] at every knot (40 at 10, 10 at 80),
    every coefficient of the table is finite, and so is the value at every
    integer from 10 to 80. *)
Theorem knots_are_reproduced :
  (forall (xs ys : list Q) (i : nat),
     length xs = length ys -> 5 <= length xs ->
     (Z.of_nat (length xs) <= 2 ^ 31)%Z ->
     strictly_increasing xs -> i < length xs ->
     exists f v, createInterpolator (Some xs) (Some ys) = Ok f /\
                 f (xs.[i])%num = Ok v /\ (v == ys.[i]%num)%Q) /\
  (forall xs ys : list float,
     length xs = length ys -> 5 <= length xs ->
     (Z.of_nat (length xs) <= 2 ^ 31)%Z ->
     strictly_increasing xs ->
     exists f t, createInterpolator (Some xs) (Some ys) = Ok f /\
       interpolate (Some xs) (Some ys) = Ok t /\
       forall i, i + 1 < length xs -> is_finite xs.[i]%num = true ->
         exists c, get None t i = Some c /\
           (forallb is_finite c = true ->
            exists v, f xs.[i]%num = Ok v /\
                      PrimFloat.eqb v ys.[i]%num = true /\
                      is_finite v = true)) /\
  (let fit := fit_and_evaluate (Some (floats golden_x)) (Some (floats golden_y)) in
   fit 10%float = Ok 40%float /\ fit 80%float = Ok 10%float /\
   map fit (floats golden_x) = map Ok (floats golden_y) /\
   (exists t, interpolate (Some (floats golden_x)) (Some (floats golden_y)) = Ok t /\
      forallb (fun row => match row with
                          | Some c => forallb is_finite c
                          | None => false
                          end) t = true) /\
   forallb (fun z => match fit (float_of_Z (10 + Z.of_nat z)) with
                     | Ok v => is_finite v
                     | Throw _ => false
                     end) (seq 0 71) = true).
Proof.
  split; [| split].
  - intros xs ys i Hy H5 Hsmall Hs Hi.
    destruct (createInterpolator_spec xs ys Hy H5) as (t & Ht & Hf).
    set (k := Nat.min i (length xs - 2)).
    assert (Hsel : selects xs (xs.[i])%num k).
    { left. exists i. repeat split; [assumption | apply Q_is_number]. }
    destruct (fitted_selects xs ys _ Hf Hsmall (xs.[i])%num k Hs Hsel)
      as [Hk Hfx].
    eexists. eexists. split; [exact Hf |]. split; [exact Hfx |].
    destruct (Nat.eq_dec i (length xs - 1)) as [Hlast | Hlast].
    + pose proof (segment_right_value xs ys (firstDerivatives_of xs ys) k
                    (increasing_distinct xs k Hs ltac:(lia))) as H.
      now replace (k + 1) with i in H by lia.
    + pose proof (segment_left_value xs ys (firstDerivatives_of xs ys) i
                    (increasing_distinct xs i Hs ltac:(lia))) as H.
      now replace k with i by lia.
  - intros xs ys Hy H5 Hsmall Hs.
    destruct (createInterpolator_spec xs ys Hy H5) as (t & Ht & Hf).
    destruct (interpolate_spec xs ys Hy H5) as (t' & Ht' & _ & Hrow).
    rewrite Ht in Ht'. injection Ht' as <-.
    eexists. exists t. split; [exact Hf |]. split; [exact Ht |].
    intros i Hi Hx. eexists. split; [apply Hrow; lia |].
    intros Hc.
    assert (Hsel : selects xs (xs.[i])%num i).
    { left. exists i. split; [lia |]. split; [| lia].
      apply sf_finite_number. now rewrite <- is_finite_spec. }
    destruct (fitted_selects xs ys _ Hf Hsmall (xs.[i])%num i Hs Hsel)
      as [_ Hfx].
    unfold segment in Hc, Hfx. cbv zeta in Hc, Hfx.
    destruct (cubic_at_knot _ _ _ _ _ Hx Hc) as [E F].
    eexists. split; [exact Hfx |]. split; [exact E | exact F].
  - cbv zeta. repeat split; try (vm_compute; reflexivity).
    eexists. split; vm_compute; reflexivity.
Qed.

Lemma knots_are_reproduced_witness :
  (exists f v, createInterpolator (Some (rationals golden_x))
                 (Some (rationals golden_y)) = Ok f /\
               f 80%Q = Ok v /\ (v == 10)%Q) /\
  (exists f v, createInterpolator (Some (floats golden_x))
                 (Some (floats golden_y)) = Ok f /\
               f 70%float = Ok v /\ PrimFloat.eqb v 30 = true /\
               is_finite v = true).
Proof.
  split.
  - apply (proj1 knots_are_reproduced (rationals golden_x) (rationals golden_y) 7).
    + reflexivity.
    + cbn. lia.
    + vm_compute. discriminate.
    + exact golden_x_increasing_Q.
    + cbn. lia.
  - destruct (proj1 (proj2 knots_are_reproduced)
                (floats golden_x) (floats golden_y) eq_refl ltac:(cbn; lia)
                ltac:(vm_compute; discriminate) golden_x_increasing_float)
      as (f & t & Hf & Ht & Hknot).
    destruct (Hknot 6 ltac:(cbn; lia) ltac:(vm_compute; reflexivity))
      as (c & Hc & Hv).
    vm_compute in Ht. injection Ht as Ht. subst t.
    vm_compute in Hc. injection Hc as Hc. subst c.
    destruct (Hv ltac:(vm_compute; reflexivity)) as (v & Hfv & E & F).
    exists f, v. repeat split; assumption.
Defined.

(** C2 as stated fails in binary64: the knots 0, 1, 2, 3, 4 increase
    strictly, the values are finite and the fit succeeds, but the slopes
    between the values overflow, and the fitted function returns [NaN], not
    [ys[i]], at every knot. *)
Lemma overflowing_fit_returns_NaN_at_the_knots :
  strictly_increasing overflow_x /\
  forallb is_finite overflow_x = true /\
  forallb is_finite overflow_y = true /\
  returns (createInterpolator (Some overflow_x) (Some overflow_y)) = true /\
  forallb (fun i =>
             match fit_and_evaluate (Some overflow_x) (Some overflow_y)
                     overflow_x.[i]%num with
             | Ok v => is_nan v && negb (PrimFloat.eqb v overflow_y.[i]%num)
             | Throw _ => false
             end) (seq 0 5) = true.
Proof.
  split.
  { intros i Hi. cbn in Hi.
    do 4 (destruct i as [| i]; [vm_compute; reflexivity |]). lia. }
  repeat split; vm_compute; reflexivity.
Qed.

(** ** The fitted function and the caller's arrays *)

Section HeapFacts.
Context {num : Type} {N : Number num}.

Lemma store_agree (n : nat) (h : Heap.heap num) (m : Heap.loc * Heap.object num) :
  fst m < n -> Heap.agree_from n (Heap.store h m) h.
Proof.
  destruct m as [l o]. cbn [fst]. intros Hl l' Hl'. unfold Heap.store.
  destruct (Nat.ltb_spec l (length h)) as [Hin | Hout]; [| reflexivity].
  rewrite <- (firstn_skipn l h) at 3.
  rewrite !nth_error_app2 by (rewrite firstn_length_le; lia).
  rewrite firstn_length_le by lia.
  destruct (l' - l) as [| d] eqn:Hd; [lia |]. cbn [nth_error].
  destruct (skipn l h) as [| o' rest] eqn:Hs.
  - apply (f_equal (@length _)) in Hs. rewrite length_skipn in Hs.
    cbn in Hs. lia.
  - replace (skipn (S l) h) with rest; [reflexivity |].
    replace (S l) with (1 + l) by lia.
    now rewrite <- skipn_skipn, Hs.
Qed.

Lemma stores_agree (n : nat) (mutations : list (Heap.loc * Heap.object num)) :
  Forall (fun m => fst m < n) mutations ->
  forall h : Heap.heap num, Heap.agree_from n (fold_left Heap.store mutations h) h.
Proof.
  induction 1 as [| m ms Hm _ IH]; intros h; cbn [fold_left].
  - intros l _. reflexivity.
  - intros l Hl. rewrite (IH (Heap.store h m) l Hl).
    exact (store_agree n h m Hm l Hl).
Qed.

Lemma read_numbers_agree (n : nat) (h1 h2 : Heap.heap num) (l : Heap.loc) :
  Heap.agree_from n h1 h2 -> n <= l -> Heap.read_numbers h1 l = Heap.read_numbers h2 l.
Proof. intros H Hl. unfold Heap.read_numbers. now rewrite (H l Hl). Qed.

Lemma read_rows_agree (n : nat) (h1 h2 : Heap.heap num) (l : Heap.loc) :
  Heap.agree_from n h1 h2 -> n <= l -> Heap.read_rows h1 l = Heap.read_rows h2 l.
Proof. intros H Hl. unfold Heap.read_rows. now rewrite (H l Hl). Qed.

(** A call reads the objects of the closure only. *)
Lemma call_agree (n : nat) (h1 h2 : Heap.heap num) (f : Heap.closure) (x : num) :
  Heap.agree_from n h1 h2 -> Heap.private_from n h2 f -> Heap.call h1 f x = Heap.call h2 f x.
Proof.
  intros Ha (Hx & Hc & Hrows). unfold Heap.call, Heap.load_table.
  rewrite (read_numbers_agree n h1 h2) by assumption.
  rewrite (read_rows_agree n h1 h2) by assumption.
  destruct (Heap.read_numbers h2 (Heap.xValsCopy f)) as [xVals |]; [| reflexivity].
  destruct (Heap.read_rows h2 (Heap.segmentCoeffs f)) as [ls |] eqn:Hls; [| reflexivity].
  specialize (Hrows ls eq_refl).
  replace (map (fun r => match r with
                         | Some l' => Heap.read_numbers h1 l'
                         | None => None
                         end) ls)
    with (map (fun r => match r with
                        | Some l' => Heap.read_numbers h2 l'
                        | None => None
                        end) ls); [reflexivity |].
  apply map_ext_in. intros [l' |] Hin; [| reflexivity].
  unfold Heap.refs_from in Hrows. rewrite Forall_forall in Hrows.
  symmetry. apply (read_numbers_agree n); [assumption |].
  exact (Hrows (Some l') Hin).
Qed.

Lemma read_numbers_app (h ext : Heap.heap num) (l : Heap.loc) (a : list num) :
  Heap.read_numbers h l = Some a -> Heap.read_numbers (h ++ ext) l = Some a.
Proof.
  unfold Heap.read_numbers. intros H.
  destruct (nth_error h l) as [o |] eqn:Ho; [| discriminate H].
  rewrite nth_error_app1 by (apply nth_error_Some; congruence).
  now rewrite Ho.
Qed.

Lemma read_numbers_valid (h : Heap.heap num) (l : Heap.loc) (a : list num) :
  Heap.read_numbers h l = Some a -> l < length h.
Proof.
  unfold Heap.read_numbers. intros H. apply nth_error_Some.
  destruct (nth_error h l); [discriminate | discriminate H].
Qed.

(** The rows are allocated after the objects of [h], which stay as they
    are, and they hold the table. *)
Lemma alloc_rows_spec (t : table) :
  forall (h : Heap.heap num) ls h', Heap.alloc_rows h t = (ls, h') ->
    (exists fresh, h' = h ++ fresh) /\
    Heap.refs_from (length h) ls /\
    forall ext,
      map (fun r => match r with
                    | Some l => Heap.read_numbers (h' ++ ext) l
                    | None => None
                    end) ls = t.
Proof.
  induction t as [| [c |] t IH]; intros h ls h' H; cbn [Heap.alloc_rows] in H.
  - injection H as <- <-. split; [exists []; now rewrite app_nil_r |].
    split; [constructor | reflexivity].
  - unfold Heap.alloc in H.
    destruct (Heap.alloc_rows (h ++ [Heap.Numbers c]) t) as [ls' h2] eqn:E.
    injection H as <- <-.
    destruct (IH _ _ _ E) as ((fresh & ->) & Hrefs & Hmap).
    split; [exists (Heap.Numbers c :: fresh); now rewrite <- app_assoc |].
    split.
    + constructor; [lia |]. unfold Heap.refs_from in *.
      eapply Forall_impl; [| exact Hrefs].
      intros [l |]; [| trivial]. rewrite length_app. cbn. lia.
    + intros ext. cbn [map]. rewrite Hmap. f_equal.
      rewrite <- !app_assoc. unfold Heap.read_numbers.
      rewrite nth_error_app2 by lia. now rewrite Nat.sub_diag.
  - destruct (Heap.alloc_rows h t) as [ls' h2] eqn:E.
    injection H as <- <-.
    destruct (IH _ _ _ E) as (Hext & Hrefs & Hmap).
    split; [assumption |]. split; [now constructor |].
    intros ext. cbn [map]. now rewrite Hmap.
Qed.

(** What [createInterpolator] leaves in the heap: the objects of [h] as
    they were, and after them the objects of the closure, which hold the
    knots and the table of the fit. *)
Lemma createInterpolator_heap_spec (h : Heap.heap num) (xVals yVals : option Heap.loc)
    (f : Heap.closure) (h' : Heap.heap num) :
  Heap.createInterpolator h xVals yVals = Ok (f, h') ->
  exists xs t,
    Heap.deref h xVals = Some xs /\
    interpolate (Heap.deref h xVals) (Heap.deref h yVals) = Ok t /\
    (exists fresh, h' = h ++ fresh) /\
    Heap.private_from (length h) h' f /\
    Heap.read_numbers h' (Heap.xValsCopy f) = Some xs /\
    Heap.load_table h' (Heap.segmentCoeffs f) = Some t.
Proof.
  unfold Heap.createInterpolator, Heap.interpolate. intros H.
  destruct (interpolate (Heap.deref h xVals) (Heap.deref h yVals)) as [t | e] eqn:Ht;
    [| discriminate H].
  cbn [bind] in H.
  destruct (Heap.alloc_rows h t) as [ls h1] eqn:Hrows. cbn [bind Heap.alloc] in H.
  destruct (alloc_rows_spec t h ls h1 Hrows) as ((fresh & ->) & Hrefs & Hmap).
  destruct (interpolate_Ok_inv _ _ _ Ht) as (xs & ys & Hx & _).
  assert (Hx' : Heap.deref ((h ++ fresh) ++ [Heap.Rows ls]) xVals = Some xs).
  { destruct xVals as [l |]; [| discriminate Hx]. cbn [Heap.deref] in *.
    rewrite <- app_assoc. now apply read_numbers_app. }
  rewrite Hx' in H. injection H as <- <-.
  exists xs, t. cbn [Heap.xValsCopy Heap.segmentCoeffs].
  split; [assumption |]. split; [reflexivity |].
  split; [eexists; rewrite <- !app_assoc; reflexivity |].
  assert (Hcell : Heap.read_rows (((h ++ fresh) ++ [Heap.Rows ls]) ++ [Heap.Numbers xs])
                    (length (h ++ fresh)) = Some ls).
  { unfold Heap.read_rows. rewrite <- app_assoc.
    rewrite nth_error_app2 by lia. now rewrite Nat.sub_diag. }
  split; [| split].
  - unfold Heap.private_from. cbn [Heap.xValsCopy Heap.segmentCoeffs].
    split; [rewrite !length_app; lia |].
    split; [rewrite length_app; lia |].
    intros ls' Hls'. rewrite Hcell in Hls'. now injection Hls' as <-.
  - unfold Heap.read_numbers. rewrite nth_error_app2 by lia.
    now rewrite Nat.sub_diag.
  - unfold Heap.load_table. rewrite Hcell. f_equal.
    rewrite <- (app_assoc (h ++ fresh)). apply Hmap.
Qed.
End HeapFacts.

(** C9: when [createInterpolator] has returned a function, the caller's two
    arrays are objects older than the fit and so are none of the objects of
    the closure; whatever is later stored into the caller's knot array or
    value array (or into any object that existed before the fit), every call
    of the fitted function returns what it returned before.  The fitted
    function is the one of the fit on the arrays as they were. *)
Theorem fitted_function_ignores_mutation {num : Type} {N : Number num}
    (h : Heap.heap num) (xVals yVals : Heap.loc) (f : Heap.closure)
    (h' : Heap.heap num) :
  Heap.createInterpolator h (Some xVals) (Some yVals) = Ok (f, h') ->
  (xVals < length h /\ yVals < length h) /\
  (forall mutations : list (Heap.loc * Heap.object num),
     Forall (fun m => fst m < length h) mutations ->
     forall x, Heap.call (fold_left Heap.store mutations h') f x
               = Heap.call h' f x) /\
  (exists g, createInterpolator (Heap.deref h (Some xVals))
               (Heap.deref h (Some yVals)) = Ok g /\
             forall x, Heap.call h' f x = g x).
Proof.
  intros H.
  destruct (createInterpolator_heap_spec h _ _ f h' H)
    as (xs & t & Hx & Ht & _ & Hpriv & Hknots & Htable).
  destruct (interpolate_Ok_inv _ _ _ Ht) as (xs' & ys & Hx' & Hy & _).
  split; [| split].
  - split; eapply read_numbers_valid; [exact Hx' | exact Hy].
  - intros mutations Hm x.
    apply (call_agree (length h)); [| assumption].
    now apply stores_agree.
  - exists (fun x => evaluatePolynomialSegment xs t x). split.
    + unfold createInterpolator. rewrite Ht. cbn [bind]. now rewrite Hx.
    + intros x. unfold Heap.call. now rewrite Hknots, Htable.
Qed.

Lemma fitted_function_ignores_mutation_witness :
  exists f h',
    Heap.createInterpolator golden_heap (Some 0) (Some 1) = Ok (f, h') /\
    Heap.call
      (Heap.store h' (0, Heap.Numbers (floats [0; 0; 0; 0; 0; 0; 0; 0]%Z)))
      f 35%float
    = Heap.call h' f 35%float.
Proof.
  destruct (Heap.createInterpolator golden_heap (Some 0) (Some 1))
    as [[f h'] | e] eqn:H; [| vm_compute in H; discriminate H].
  exists f, h'. split; [reflexivity |].
  destruct (fitted_function_ignores_mutation golden_heap 0 1 f h' H)
    as (_ & Hm & _).
  apply (Hm [(0, Heap.Numbers (floats [0; 0; 0; 0; 0; 0; 0; 0]%Z))]).
  constructor; [cbn; lia | constructor].
Defined.

(** The copy of the knots matters: a function that kept the caller's array
    would return another value once the array is overwritten. *)
Example aliasing_function_observes_mutation :
  exists f h',
    Heap.createInterpolator golden_heap (Some 0) (Some 1) = Ok (f, h') /\
    same_result
      (Heap.call_aliasing
         (Heap.store h' (0, Heap.Numbers (floats [0; 0; 0; 0; 0; 0; 0; 0]%Z)))
         0 f 35%float)
      (Heap.call_aliasing h' 0 f 35%float) = false /\
    same_result (Heap.call_aliasing h' 0 f 35%float) (Heap.call h' f 35%float)
    = true.
Proof.
  eexists. eexists. split; [vm_compute; reflexivity |].
  split; vm_compute; reflexivity.
Qed.

(** * Further properties *)

(** ** The binary search on any array *)

Lemma mid_is_half (low high : Z) :
  (0 <= low)%Z -> (low <= high)%Z -> (high < 2 ^ 31)%Z ->
  Z.shiftr ((low + high) mod 2 ^ 32) 1 = ((low + high) / 2)%Z.
Proof.
  intros H0 Hle Hhi. rewrite Z.mod_small by lia.
  now rewrite Z.shiftr_div_pow2 by lia.
Qed.

Section SearchAny.
Context {num : Type} {N : Number num}.
Variable a : list num.
Variable key : num.
Hypothesis small : (Z.of_nat (length a) <= 2 ^ 31)%Z.

Lemma binarySearch_loop_any (fuel : nat) :
  forall low high,
    (0 <= low)%Z -> (high < Z.of_nat (length a))%Z -> (low <= high + 1)%Z ->
    match binarySearch_loop fuel a key low high with
    | Ok m => ((low <= m <= high)%Z /\ eqb (a.[Z.to_nat m])%num key = true)
              \/ (- (high + 2) <= m <= - (low + 1))%Z
    | Throw e => e = Error /\
                 exists i, (low <= Z.of_nat i <= high)%Z /\ incomparable a key i
    end.
Proof.
  induction fuel as [| fuel IH]; intros low high H0 Hhi Hlh;
    cbn [binarySearch_loop].
  - right. lia.
  - destruct (Z.leb_spec low high) as [Hle | Hgt]; [| right; lia].
    pose proof (mid_bounds low high H0 Hle ltac:(lia)) as Hmid.
    cbv zeta in Hmid.
    remember (Z.shiftr ((low + high) mod 2 ^ 32) 1) as mid.
    destruct (ltb (a.[Z.to_nat mid])%num key) eqn:Hlt.
    { specialize (IH (mid + 1)%Z high ltac:(lia) Hhi ltac:(lia)).
      destruct (binarySearch_loop fuel a key (mid + 1) high) as [m | e].
      - destruct IH as [[Hm E] | Hm]; [left; split; [lia | exact E] | right; lia].
      - destruct IH as (-> & i & Hi & Hinc). split; [reflexivity |].
        exists i. split; [lia | exact Hinc]. }
    destruct (ltb key (a.[Z.to_nat mid])%num) eqn:Hgt.
    { specialize (IH low (mid - 1)%Z H0 ltac:(lia) ltac:(lia)).
      destruct (binarySearch_loop fuel a key low (mid - 1)) as [m | e].
      - destruct IH as [[Hm E] | Hm]; [left; split; [lia | exact E] | right; lia].
      - destruct IH as (-> & i & Hi & Hinc). split; [reflexivity |].
        exists i. split; [lia | exact Hinc]. }
    destruct (eqb (a.[Z.to_nat mid])%num key) eqn:Heq.
    + left. split; [lia | exact Heq].
    + split; [reflexivity |]. exists (Z.to_nat mid).
      split; [lia |]. repeat split; assumption.
Qed.
End SearchAny.

(** X1: on any array of at most 2^31 elements, sorted or not, a result of
    [binarySearch] that is not negative is the index of an element equal to
    the key, and a negative one is at least [-(n + 1)]; an exception is the
    [Error] of the last branch, and then some element of the array compares
    with the key neither below, nor above, nor equal. *)
Theorem binarySearch_any_array {num : Type} {N : Number num}
    (a : list num) (key : num) :
  (Z.of_nat (length a) <= 2 ^ 31)%Z ->
  match binarySearch a key with
  | Ok m => ((0 <= m < Z.of_nat (length a))%Z /\
             (a.[Z.to_nat m] == key)%num = true)
            \/ (- (Z.of_nat (length a) + 1) <= m <= -1)%Z
  | Throw e => e = Error /\
               exists i, i < length a /\
                 (a.[i] < key)%num = false /\ (key < a.[i])%num = false /\
                 (a.[i] == key)%num = false
  end.
Proof.
  intros Hsmall. unfold binarySearch.
  pose proof (binarySearch_loop_any a key Hsmall (length a) 0
                (Z.of_nat (length a) - 1) ltac:(lia) ltac:(lia) ltac:(lia)) as H.
  destruct (binarySearch_loop (length a) a key 0 (Z.of_nat (length a) - 1))
    as [m | e].
  - destruct H as [[Hm E] | Hm]; [left; split; [lia | exact E] | right; lia].
  - destruct H as (-> & i & Hi & Hinc). split; [reflexivity |].
    exists i. split; [lia | exact Hinc].
Qed.

Lemma binarySearch_any_array_witness :
  match binarySearch (floats [30; 10; 20]%Z) 20%float with
  | Ok m => ((0 <= m < 3)%Z /\
             ((floats [30; 10; 20]%Z).[Z.to_nat m] == 20%float)%num = true)
            \/ (- (3 + 1) <= m <= -1)%Z
  | Throw e => e = Error /\
               exists i, i < 3 /\
                 ((floats [30; 10; 20]%Z).[i] < 20%float)%num = false /\
                 (20%float < (floats [30; 10; 20]%Z).[i])%num = false /\
                 ((floats [30; 10; 20]%Z).[i] == 20%float)%num = false
  end.
Proof.
  apply (binarySearch_any_array (floats [30; 10; 20]%Z) 20%float).
  vm_compute. discriminate.
Defined.

(** ** The binary search on a sorted array *)

Section SearchSorted.
Context {num : Type} {N : Number num} {L : NumberLaws num}.
Variable a : list num.
Hypothesis small : (Z.of_nat (length a) <= 2 ^ 31)%Z.
Hypothesis numbers : forall i, i < length a -> is_number (a.[i])%num.
Hypothesis sorted : strictly_increasing a.

Lemma element_unique (key : num) (i j : nat) :
  i < length a -> j < length a ->
  eqb (a.[i])%num key = true -> eqb (a.[j])%num key = true -> i = j.
Proof.
  intros Hi Hj Ei Ej.
  destruct (Nat.lt_trichotomy i j) as [H | [H | H]]; [| assumption |]; exfalso.
  - pose proof (sorted_lt a sorted i j H Hj) as Hlt.
    apply (eqb_ltb_r _ _ _ Ej) in Hlt. exact (ltb_eqb_contra _ _ Hlt Ei).
  - pose proof (sorted_lt a sorted j i H Hi) as Hlt.
    apply (eqb_ltb_r _ _ _ Ei) in Hlt. exact (ltb_eqb_contra _ _ Hlt Ej).
Qed.

Lemma binarySearch_present (key : num) (j : nat) :
  j < length a -> eqb (a.[j])%num key = true ->
  binarySearch a key = Ok (Z.of_nat j).
Proof.
  intros Hj E. pose proof (eqb_number _ _ E) as [_ Hk].
  destruct (binarySearch_spec a key small numbers Hk sorted)
    as (m & Hm & [[Hrange Hfound] | (p & -> & Hp & Hbelow & Habove)]).
  - rewrite Hm. f_equal.
    assert (Z.to_nat m = j) by (apply (element_unique key); [lia | | |]; assumption).
    lia.
  - exfalso. destruct (Nat.lt_ge_cases j p) as [Hjp | Hjp].
    + exact (ltb_eqb_contra _ _ (Hbelow j Hjp) E).
    + exact (gtb_eqb_contra _ _ (Habove j ltac:(lia)) E).
Qed.

Lemma binarySearch_absent (key : num) :
  is_number key ->
  (forall j, j < length a -> eqb (a.[j])%num key = false) ->
  exists p, binarySearch a key = Ok (- (Z.of_nat p + 1))%Z /\
            insertion_point a key p.
Proof.
  intros Hk Habsent.
  destruct (binarySearch_spec a key small numbers Hk sorted)
    as (m & Hm & [[Hrange Hfound] | (p & -> & Hp)]).
  - rewrite Habsent in Hfound by lia. discriminate Hfound.
  - exists p. split; assumption.
Qed.
End SearchSorted.

(** X2: on a strictly increasing array of numbers (at most 2^31 of them),
    searching for a key equal to the element at [j] returns [j]; searching
    for a number equal to no element returns [-(p + 1)], where [p] is the
    insertion point: the elements before [p] are below the key and those
    from [p] on are above it. *)
Theorem binarySearch_sorted {num : Type} {N : Number num}
    {L : NumberLaws num} (a : list num) (key : num) :
  (Z.of_nat (length a) <= 2 ^ 31)%Z ->
  (forall i, i < length a -> is_number (a.[i])%num) ->
  strictly_increasing a ->
  (forall j, j < length a -> (a.[j] == key)%num = true ->
     binarySearch a key = Ok (Z.of_nat j)) /\
  (is_number key ->
   (forall j, j < length a -> (a.[j] == key)%num = false) ->
   exists p, binarySearch a key = Ok (- (Z.of_nat p + 1))%Z /\
     p <= length a /\
     (forall j, j < p -> (a.[j] < key)%num = true) /\
     (forall j, p <= j < length a -> (key < a.[j])%num = true)).
Proof.
  intros Hsmall Hnum Hs. split.
  - intros j Hj E. now apply binarySearch_present.
  - intros Hk Habsent. now apply binarySearch_absent.
Qed.

Lemma golden_x_numbers_float (i : nat) :
  i < length (floats golden_x) -> is_number ((floats golden_x).[i])%num.
Proof.
  intros Hi. cbn in Hi.
  do 8 (destruct i as [| i]; [vm_compute; reflexivity |]). lia.
Qed.

Lemma binarySearch_sorted_witness :
  binarySearch (floats golden_x) 40%float = Ok 3%Z.
Proof.
  apply (proj1 (binarySearch_sorted (floats golden_x) 40%float
                  ltac:(vm_compute; discriminate) golden_x_numbers_float
                  golden_x_increasing_float) 3).
  - cbn. lia.
  - vm_compute. reflexivity.
Defined.

(** ** The number of iterations of the search *)


Section SearchIterations.
Context {num : Type} {N : Number num}.
Variable a : list num.
Variable key : num.
Hypothesis small : (Z.of_nat (length a) <= 2 ^ 31)%Z.

(** Each iteration halves the interval at least: iterations beyond the
    binary logarithm of its size change nothing. *)
Lemma binarySearch_loop_halves (fuel fuel' : nat) :
  forall low high,
    (0 <= low)%Z -> (high < Z.of_nat (length a))%Z ->
    (high - low + 1 < 2 ^ Z.of_nat fuel)%Z ->
    (high - low + 1 < 2 ^ Z.of_nat fuel')%Z ->
    binarySearch_loop fuel a key low high
    = binarySearch_loop fuel' a key low high.
Proof.
  revert fuel'.
  induction fuel as [| fuel IH]; intros fuel' low high H0 Hhi Hf Hf'.
  - change (2 ^ Z.of_nat 0)%Z with 1%Z in Hf.
    destruct fuel' as [| fuel']; [reflexivity |]. cbn [binarySearch_loop].
    destruct (Z.leb_spec low high); [lia | reflexivity].
  - destruct fuel' as [| fuel'].
    + change (2 ^ Z.of_nat 0)%Z with 1%Z in Hf'. cbn [binarySearch_loop].
      destruct (Z.leb_spec low high); [lia | reflexivity].
    + cbn [binarySearch_loop].
      destruct (Z.leb_spec low high) as [Hle | Hgt]; [| reflexivity].
      rewrite Nat2Z.inj_succ, Z.pow_succ_r in Hf, Hf' by lia.
      rewrite (mid_is_half low high H0 Hle ltac:(lia)).
      assert (Hmid : (2 * ((low + high) / 2) <= low + high
                      < 2 * ((low + high) / 2) + 2)%Z).
      { pose proof (Z.div_mod (low + high) 2 ltac:(lia)).
        pose proof (Z.mod_pos_bound (low + high) 2 ltac:(lia)). lia. }
      destruct (ltb _ key); [apply IH; lia |].
      destruct (ltb key _); [apply IH; lia |]. reflexivity.
Qed.
End SearchIterations.

(** X3: the loop of [binarySearch] is left after at most [k] iterations
    whenever the array has fewer than [2^k] elements (and at most 2^31):
    the search cut off after [k] iterations, or after any larger number of
    them, returns what [binarySearch] returns. *)
Theorem binarySearch_logarithmic {num : Type} {N : Number num}
    (a : list num) (key : num) (k k' : nat) :
  (Z.of_nat (length a) <= 2 ^ 31)%Z ->
  (Z.of_nat (length a) < 2 ^ Z.of_nat k)%Z -> k <= k' ->
  binarySearch_loop k a key 0 (Z.of_nat (length a) - 1) = binarySearch a key /\
  binarySearch_loop k' a key 0 (Z.of_nat (length a) - 1) = binarySearch a key.
Proof.
  intros Hsmall Hk Hk'. unfold binarySearch.
  assert (Hn : (Z.of_nat (length a) < 2 ^ Z.of_nat (length a))%Z).
  { apply Z.pow_gt_lin_r; lia. }
  assert (Hk2 : (2 ^ Z.of_nat k <= 2 ^ Z.of_nat k')%Z).
  { apply Z.pow_le_mono_r; lia. }
  split; apply binarySearch_loop_halves; lia.
Qed.

Lemma binarySearch_logarithmic_witness :
  binarySearch_loop 4 (floats golden_x) 35%float 0 7
  = binarySearch (floats golden_x) 35%float /\
  binarySearch_loop 6 (floats golden_x) 35%float 0 7
  = binarySearch (floats golden_x) 35%float.
Proof.
  apply (binarySearch_logarithmic (floats golden_x) 35%float 4 6).
  - vm_compute. discriminate.
  - vm_compute. reflexivity.
  - lia.
Defined.

(** ** The order check, in full *)

Section OrderFull.
Context {num : Type} {N : Number num}.

Lemma ordered_cons (dir : Z) (strict : bool) (p v : num) (rest : list num) :
  ordered dir strict (p :: v :: rest) <->
  violates dir strict p v = false /\ ordered dir strict (v :: rest).
Proof.
  unfold ordered. split.
  - intros H. split.
    + apply (H 0). cbn. lia.
    + intros i Hi. apply (H (S i)). cbn in *. lia.
  - intros [H0 H] [| i] Hi.
    + exact H0.
    + apply (H i). cbn in *. lia.
Qed.

(** The loop stops at the first pair that violates the order. *)
Lemma checkOrder_loop_ordered (dir : Z) (strict : bool) (rest : list num) :
  (dir = OrderDirection.INCREASING \/ dir = OrderDirection.DECREASING) ->
  forall previous index,
    exists k, checkOrder_loop dir strict previous rest index = Ok k /\
      index <= k <= index + length rest /\
      (k = index + length rest <-> ordered dir strict (previous :: rest)).
Proof.
  intros Hdir. induction rest as [| v rest IH]; intros previous index.
  - exists index. split; [reflexivity |]. split; [cbn; lia |].
    split; [| cbn; lia]. intros _ i Hi. cbn in Hi. lia.
  - cbn [checkOrder_loop].
    assert (Hv : (if (dir =? OrderDirection.INCREASING)%Z
                  then (if strict then leb v previous else ltb v previous)
                  else (if strict then leb previous v else ltb previous v))
                 = violates dir strict previous v) by reflexivity.
    assert (Hloop :
      (if (dir =? OrderDirection.INCREASING)%Z
       then if (if strict then leb v previous else ltb v previous)
            then Ok index
            else checkOrder_loop dir strict v rest (S index)
       else if (dir =? OrderDirection.DECREASING)%Z
            then if (if strict then leb previous v else ltb previous v)
                 then Ok index
                 else checkOrder_loop dir strict v rest (S index)
            else Throw (E_new "MathInternalError"))
      = if violates dir strict previous v
        then Ok index
        else checkOrder_loop dir strict v rest (S index)).
    { rewrite <- Hv. now destruct Hdir as [-> | ->]. }
    rewrite Hloop. clear Hloop Hv.
    destruct (violates dir strict previous v) eqn:E.
    + exists index. split; [reflexivity |]. split; [cbn; lia |].
      split; [cbn; lia |]. intros H. apply ordered_cons in H as [H _].
      congruence.
    + destruct (IH v (S index)) as (k & Hk & Hrange & Hiff).
      exists k. split; [exact Hk |]. cbn [length]. split; [lia |].
      split.
      * intros H. apply ordered_cons. split; [exact E |]. apply Hiff. lia.
      * intros H. apply ordered_cons in H as [_ H]. apply Hiff in H. lia.
Qed.

Lemma checkOrder_known_direction (val : list num) (dir : option Z)
    (strict : bool) :
  (direction dir = OrderDirection.INCREASING
   \/ direction dir = OrderDirection.DECREASING) ->
  exists b,
    checkOrder val dir strict false = Ok b /\
    (b = true <-> val <> [] /\ ordered (direction dir) strict val) /\
    checkOrder val dir strict true = if b then Ok true else Throw TypeError.
Proof.
  intros Hdir. unfold checkOrder.
  assert (Hd : match dir with
               | None | Some 0%Z => OrderDirection.INCREASING
               | Some d => d
               end = direction dir) by (destruct dir as [[| p | p] |]; reflexivity).
  rewrite Hd.
  destruct val as [| p rest].
  - cbn [tl].
    destruct (checkOrder_loop_ordered (direction dir) strict [] Hdir
                (get NaN [] 0) 1) as (k & Hk & Hrange & _).
    rewrite Hk. cbn [bind length] in *.
    assert (k = 1) as -> by lia. cbn.
    exists false. split; [reflexivity |]. split; [| reflexivity].
    split; [discriminate | intros [H _]; now contradiction H].
  - cbn [tl].
    destruct (checkOrder_loop_ordered (direction dir) strict rest Hdir p 1)
      as (k & Hk & Hrange & Hiff).
    change (get NaN (p :: rest) 0) with p. rewrite Hk. cbn [bind length].
    destruct (Nat.eqb_spec k (S (length rest))) as [E | E].
    + exists true. split; [reflexivity |]. split; [| reflexivity].
      split; [| reflexivity]. intros _. split; [discriminate |].
      apply Hiff. lia.
    + exists false. split; [reflexivity |]. split; [| reflexivity].
      split; [discriminate |]. intros [_ H]. apply Hiff in H. lia.
Qed.
End OrderFull.

(** X4: with the direction omitted, [INCREASING] or [DECREASING],
    [checkOrder] without the abort flag returns [true] exactly when the array
    is not empty and no element stands in the violating comparison to the
    element before it (an empty array is reported as out of order); with the
    abort flag it returns [true] in the same cases and raises the runtime's
    [TypeError] in all others. *)
Theorem checkOrder_decides_order {num : Type} {N : Number num}
    (val : list num) (dir : option Z) (strict : bool) :
  dir = None \/ dir = Some OrderDirection.INCREASING
  \/ dir = Some OrderDirection.DECREASING ->
  exists b,
    checkOrder val dir strict false = Ok b /\
    (b = true <->
     val <> [] /\
     forall i, i + 1 < length val ->
       (if (direction dir =? OrderDirection.INCREASING)%Z
        then (if strict then val.[i + 1] <= val.[i] else val.[i + 1] < val.[i])
        else (if strict then val.[i + 1] >= val.[i] else val.[i + 1] > val.[i]))%num
       = false) /\
    checkOrder val dir strict true = if b then Ok true else Throw TypeError.
Proof.
  intros Hdir. apply checkOrder_known_direction.
  destruct Hdir as [-> | [-> | ->]]; cbn; auto.
Qed.

Lemma checkOrder_decides_order_witness :
  exists b,
    checkOrder (floats [5; 3; 3; 1]%Z) (Some OrderDirection.DECREASING) false
      false = Ok b /\
    checkOrder (floats [5; 3; 3; 1]%Z) (Some OrderDirection.DECREASING) false
      true = if b then Ok true else Throw TypeError.
Proof.
  destruct (checkOrder_decides_order (floats [5; 3; 3; 1]%Z)
              (Some OrderDirection.DECREASING) false) as (b & H1 & _ & H2).
  - right. right. reflexivity.
  - exists b. split; assumption.
Defined.

(** X5: with a direction that is neither [INCREASING] nor [DECREASING],
    [checkOrder] raises [MathInternalError] on every array of two or more
    elements, whatever the elements and the flags; an array of one element
    is accepted, and the empty array is reported as out of order, because
    the [switch] is never reached. *)
Theorem checkOrder_unknown_direction {num : Type} {N : Number num}
    (val : list num) (d : Z) (strict abort : bool) :
  d <> OrderDirection.INCREASING -> d <> OrderDirection.DECREASING ->
  (2 <= length val ->
   checkOrder val (Some d) strict abort = Throw (Exception "MathInternalError")) /\
  (length val = 1 -> checkOrder val (Some d) strict abort = Ok true) /\
  (length val = 0 ->
   checkOrder val (Some d) strict abort
   = if abort then Throw TypeError else Ok false).
Proof.
  intros H0 H1. unfold checkOrder.
  assert (Hd : match d with 0%Z => OrderDirection.INCREASING | _ => d end = d)
    by (destruct d; [contradiction H0 |..]; reflexivity).
  rewrite Hd.
  destruct val as [| p [| v rest]]; cbn [length tl checkOrder_loop bind].
  - split; [lia |]. split; [discriminate |]. intros _. now destruct abort.
  - split; [lia |]. split; [reflexivity | discriminate].
  - split; [| split; discriminate]. intros _.
    destruct (Z.eqb_spec d OrderDirection.INCREASING); [contradiction |].
    destruct (Z.eqb_spec d OrderDirection.DECREASING); [contradiction |].
    reflexivity.
Qed.

Lemma checkOrder_unknown_direction_witness :
  checkOrder (floats [1; 2; 3]%Z) (Some 2%Z) true false
  = Throw (Exception "MathInternalError").
Proof.
  apply (checkOrder_unknown_direction (floats [1; 2; 3]%Z) 2 true false);
    [discriminate | discriminate | cbn; lia].
Defined.

Section OrderReversed.
Context {num : Type} {N : Number num}.

Lemma ordered_rev (strict : bool) (val : list num) :
  ordered OrderDirection.DECREASING strict (rev val)
  <-> ordered OrderDirection.INCREASING strict val.
Proof.
  unfold ordered, violates, get.
  cbn [Z.eqb OrderDirection.INCREASING OrderDirection.DECREASING].
  rewrite length_rev. split; intros H i Hi.
  - specialize (H (length val - (i + 2)) ltac:(lia)).
    rewrite !rev_nth in H by lia.
    replace (length val - S (length val - (i + 2))) with (i + 1) in H by lia.
    replace (length val - S (length val - (i + 2) + 1)) with i in H by lia.
    exact H.
  - rewrite !rev_nth by lia.
    specialize (H (length val - (i + 2)) ltac:(lia)).
    replace (length val - (i + 2) + 1) with (length val - S i) in H by lia.
    replace (length val - S (i + 1)) with (length val - (i + 2)) by lia.
    exact H.
Qed.
End OrderReversed.

(** X6: checking the reversed array for the decreasing order is checking
    the array for the increasing order: the two calls of [checkOrder] have
    the same outcome, for either strictness and with or without the abort
    flag. *)
Theorem checkOrder_reversed {num : Type} {N : Number num}
    (val : list num) (strict abort : bool) :
  checkOrder (rev val) (Some OrderDirection.DECREASING) strict abort
  = checkOrder val (Some OrderDirection.INCREASING) strict abort.
Proof.
  destruct (checkOrder_known_direction (rev val)
              (Some OrderDirection.DECREASING) strict (or_intror eq_refl))
    as (b1 & Hf1 & Hiff1 & Ht1).
  destruct (checkOrder_known_direction val
              (Some OrderDirection.INCREASING) strict (or_introl eq_refl))
    as (b2 & Hf2 & Hiff2 & Ht2).
  cbn [direction] in *.
  assert (E : b1 = b2).
  { assert (Hb : b1 = true <-> b2 = true).
    { rewrite Hiff1, Hiff2, ordered_rev.
      split; intros [Hne Ho]; (split; [| exact Ho]); intros E; apply Hne.
      - now rewrite E.
      - apply (f_equal (@rev num)) in E. now rewrite rev_involutive in E. }
    destruct b1, b2; try reflexivity.
    - symmetry. now apply Hb.
    - now apply Hb. }
  subst b2. destruct abort; congruence.
Qed.

#[export] Instance NumberLeb_float : NumberLeb float.
Proof.
  constructor. intros a b. cbn [leb ltb eqb Number_float].
  rewrite FloatAxioms.leb_spec, FloatAxioms.ltb_spec, FloatAxioms.eqb_spec.
  unfold SFleb, SFltb, SFeqb.
  now destruct (SFcompare (Prim2SF a) (Prim2SF b)) as [[| |] |].
Qed.

#[export] Instance NumberLeb_Q : NumberLeb Q.
Proof.
  constructor. intros a b. cbn [leb ltb eqb Number_Q].
  destruct (Qle_bool a b) eqn:E1, (Qle_bool b a) eqn:E2, (Qeq_bool a b) eqn:E3;
    try reflexivity; exfalso;
    rewrite ?Qle_bool_iff, ?Qeq_bool_iff in *;
    try (apply not_true_iff_false in E1; rewrite Qle_bool_iff in E1);
    try (apply not_true_iff_false in E2; rewrite Qle_bool_iff in E2);
    try (apply not_true_iff_false in E3; rewrite Qeq_bool_iff in E3);
    lra.
Qed.

(** X7: on a non-empty array of numbers, the strict increasing check of
    [checkOrder] returns [true] exactly when every element is below the
    next one. *)
Theorem checkOrder_strict_increasing {num : Type} {N : Number num}
    {L : NumberLaws num} {B : NumberLeb num} (val : list num) :
  val <> [] ->
  (forall i, i < length val -> is_number (val.[i])%num) ->
  (checkOrder val (Some OrderDirection.INCREASING) true false = Ok true
   <-> strictly_increasing val).
Proof.
  intros Hne Hnum.
  destruct (checkOrder_known_direction val (Some OrderDirection.INCREASING)
              true (or_introl eq_refl)) as (b & Hb & Hiff & _).
  rewrite Hb. cbn [direction] in Hiff.
  assert (Hord : ordered OrderDirection.INCREASING true val
                 <-> strictly_increasing val).
  { unfold ordered, strictly_increasing, violates.
    cbn [Z.eqb OrderDirection.INCREASING].
    split; intros H i Hi; specialize (H i Hi).
    - rewrite leb_ltb_eqb in H. apply orb_false_iff in H as [H1 H2].
      destruct (trichotomy (val.[i])%num (val.[i + 1])%num) as [T | [T | T]];
        [apply Hnum; lia | apply Hnum; lia | exact T | | congruence].
      exfalso. destruct (trichotomy (val.[i + 1])%num (val.[i])%num)
        as [T' | [T' | T']]; [apply Hnum; lia | apply Hnum; lia | ..];
        try congruence.
      exact (ltb_eqb_contra _ _ T' T).
    - rewrite leb_ltb_eqb. apply orb_false_iff. split.
      + now apply ltb_asym.
      + now apply ltb_not_eqb in H. }
  split.
  - intros E. injection E as ->. apply Hord. now apply Hiff.
  - intros H. f_equal. apply Hiff. split; [exact Hne | now apply Hord].
Qed.

Lemma checkOrder_strict_increasing_witness :
  checkOrder (floats golden_x) (Some OrderDirection.INCREASING) true false
  = Ok true.
Proof.
  apply (checkOrder_strict_increasing (floats golden_x)).
  - discriminate.
  - exact golden_x_numbers_float.
  - exact golden_x_increasing_float.
Defined.

(** ** Horner's scheme, in exact arithmetic *)

Section Horner.
Local Open Scope Q_scope.

Lemma power_sum_app (c : list Q) (v x : Q) :
  forall k, power_sum (c ++ [v]) x k
            == power_sum c x k + v * power x (k + length c).
Proof.
  induction c as [| c0 c IH]; intros k; cbn [app power_sum length].
  - rewrite Nat.add_0_r. ring.
  - rewrite IH. replace (S k + length c)%nat with (k + S (length c))%nat by lia.
    ring.
Qed.

(** The loop of [evaluatePolynomial], started with [v] and run over the
    coefficients [cs] from the highest down. *)
Lemma horner_loop (x : Q) (cs : list Q) :
  forall v, fold_left (fun v ci => add (mul x v) ci) cs v
            == v * power x (length cs) + power_sum (rev cs) x 0.
Proof.
  induction cs as [| ci cs IH]; intros v; cbn [fold_left rev length power].
  - cbn [power_sum]. ring.
  - rewrite IH, power_sum_app, length_rev. to_Q. cbn [Nat.add]. ring.
Qed.
End Horner.

(** X8: in exact arithmetic [evaluatePolynomial(c, x)] is the value at [x]
    of the polynomial with the coefficients [c] in ascending order, the sum
    of the [c[j] * x^j], for any number of coefficients (0 for none). *)
Theorem evaluatePolynomial_value (c : list Q) (x : Q) :
  (evaluatePolynomial c x == power_sum c x 0)%Q.
Proof.
  unfold evaluatePolynomial.
  destruct (rev c) as [| v cs] eqn:E.
  - apply (f_equal (@rev Q)) in E. rewrite rev_involutive in E. subst c.
    reflexivity.
  - rewrite horner_loop.
    apply (f_equal (@rev Q)) in E. rewrite rev_involutive in E. subst c.
    cbn [rev]. rewrite power_sum_app, length_rev. cbn [Nat.add]. ring.
Qed.

(** ** The Hermite converter on its own *)

Lemma interpolateHermiteSorted_spec_errors {num : Type} {N : Number num}
    (xs ys fd : list num) :
  (length xs <> length ys ->
   interpolateHermiteSorted xs ys fd
   = Throw (Exception "DimensionMismatchException")) /\
  (length xs = length ys -> length xs <> length fd ->
   interpolateHermiteSorted xs ys fd
   = Throw (Exception "DimensionMismatchException")).
Proof.
  split.
  - intros H. unfold interpolateHermiteSorted.
    destruct (Nat.eqb_spec (length xs) (length ys)); [contradiction |].
    reflexivity.
  - intros Hy H. unfold interpolateHermiteSorted.
    rewrite <- Hy, Nat.eqb_refl. cbn [negb].
    destruct (Nat.eqb_spec (length xs) (length fd)); [contradiction |].
    reflexivity.
Qed.

(** X9: [interpolateHermiteSorted] raises [DimensionMismatchException]
    when the values or the derivatives are not as many as the knots, and
    [NumberIsTooSmallException] when there are fewer than two knots;
    otherwise it returns one row of four coefficients per segment, the
    first two being the value and the derivative at the left knot, the other
    two as the formulas of the loop give them; the rows are copies, so that
    no row is changed by the iterations after it. *)
Theorem interpolateHermiteSorted_result {num : Type} {N : Number num}
    (xs ys fd : list num) :
  (length xs <> length ys ->
   interpolateHermiteSorted xs ys fd
   = Throw (Exception "DimensionMismatchException")) /\
  (length xs = length ys -> length xs <> length fd ->
   interpolateHermiteSorted xs ys fd
   = Throw (Exception "DimensionMismatchException")) /\
  (length xs = length ys -> length xs = length fd -> length xs < 2 ->
   interpolateHermiteSorted xs ys fd
   = Throw (Exception "NumberIsTooSmallException")) /\
  (length xs = length ys -> length xs = length fd -> 2 <= length xs ->
   exists t, interpolateHermiteSorted xs ys fd = Ok t /\
     length t = length xs - 1 /\
     forall i, i < length xs - 1 ->
       get None t i =
       Some (let w := xs.[i + 1] - xs.[i] in
             [ ys.[i]; fd.[i];
               (of_Z 3 * (ys.[i + 1] - ys.[i]) / w - of_Z 2 * fd.[i]
                - fd.[i + 1]) / w;
               (of_Z 2 * (ys.[i] - ys.[i + 1]) / w + fd.[i] + fd.[i + 1])
               / (w * w) ])%num).
Proof.
  split; [| split; [| split]].
  - apply interpolateHermiteSorted_spec_errors.
  - apply interpolateHermiteSorted_spec_errors.
  - intros Hy Hd H. unfold interpolateHermiteSorted.
    rewrite <- Hy, <- Hd, Nat.eqb_refl. cbn [negb].
    destruct (Nat.ltb_spec (length xs) 2); [reflexivity | lia].
  - intros Hy Hd H. now apply interpolateHermiteSorted_spec.
Qed.

Lemma interpolateHermiteSorted_result_witness :
  interpolateHermiteSorted (floats [1; 2]%Z) (floats [1; 2]%Z) (floats [1]%Z)
  = Throw (Exception "DimensionMismatchException") /\
  interpolateHermiteSorted (floats [1]%Z) (floats [1]%Z) (floats [1]%Z)
  = Throw (Exception "NumberIsTooSmallException") /\
  exists t, interpolateHermiteSorted (floats [0; 2]%Z) (floats [1; 3]%Z)
              (floats [0; 0]%Z) = Ok t /\ length t = 1.
Proof.
  split; [| split].
  - apply (proj1 (proj2 (interpolateHermiteSorted_result
                           (floats [1; 2]%Z) (floats [1; 2]%Z) (floats [1]%Z))));
      [reflexivity | discriminate].
  - apply (proj1 (proj2 (proj2 (interpolateHermiteSorted_result
                           (floats [1]%Z) (floats [1]%Z) (floats [1]%Z)))));
      [reflexivity | reflexivity | cbn; lia].
  - destruct (proj2 (proj2 (proj2 (interpolateHermiteSorted_result
                (floats [0; 2]%Z) (floats [1; 3]%Z) (floats [0; 0]%Z))))
                eq_refl eq_refl ltac:(cbn; lia)) as (t & Ht & Hlen & _).
    exists t. split; assumption.
Defined.

(** X10: in exact arithmetic, for any derivative array (not only Akima's),
    as long as the two knots of a segment differ, the polynomial that
    [interpolateHermiteSorted] builds for the segment takes the given values
    at the two knots and has the given derivatives there. *)
Theorem hermite_conditions (xs ys fd : list Q) (t : table) (i : nat) :
  interpolateHermiteSorted xs ys fd = Ok t ->
  i + 1 < length xs ->
  ~ (xs.[i]%num == xs.[i + 1]%num)%Q ->
  exists c, get None t i = Some c /\
    (segment_value c xs.[i]%num xs.[i]%num == ys.[i]%num)%Q /\
    (segment_value c xs.[i]%num xs.[i + 1]%num == ys.[i + 1]%num)%Q /\
    (segment_slope c xs.[i]%num xs.[i]%num == fd.[i]%num)%Q /\
    (segment_slope c xs.[i]%num xs.[i + 1]%num == fd.[i + 1]%num)%Q.
Proof.
  intros Ht Hi Hd.
  destruct (Nat.eq_dec (length xs) (length ys)) as [Hy | Hy];
    [| rewrite (proj1 (interpolateHermiteSorted_spec_errors xs ys fd) Hy)
         in Ht; discriminate Ht].
  destruct (Nat.eq_dec (length xs) (length fd)) as [Hf | Hf];
    [| rewrite (proj2 (interpolateHermiteSorted_spec_errors xs ys fd) Hy Hf)
         in Ht; discriminate Ht].
  destruct (interpolateHermiteSorted_spec xs ys fd Hy Hf ltac:(lia))
    as (t' & Ht' & _ & Hrow).
  rewrite Ht in Ht'. injection Ht' as <-.
  eexists. split; [apply Hrow; lia |].
  split; [now apply segment_left_value |].
  split; [now apply segment_right_value |].
  split; [now apply segment_left_slope | now apply segment_right_slope].
Qed.

Lemma hermite_conditions_witness :
  exists c,
    (segment_value c 0 0 == 1)%Q /\ (segment_value c 0 2 == 3)%Q /\
    (segment_slope c 0 0 == 5)%Q /\ (segment_slope c 0 2 == 7)%Q.
Proof.
  destruct (interpolateHermiteSorted (rationals [0; 2]%Z) (rationals [1; 3]%Z)
              (rationals [5; 7]%Z)) as [t | e] eqn:Ht;
    [| vm_compute in Ht; discriminate Ht].
  destruct (hermite_conditions (rationals [0; 2]%Z) (rationals [1; 3]%Z)
              (rationals [5; 7]%Z) t 0 Ht) as (c & _ & H);
    [cbn; lia | intros H; vm_compute in H; discriminate H |].
  exists c. exact H.
Defined.

(** ** The fit is local *)

Section Locality.
Context {num : Type} {N : Number num}.
Variables xs ys xs' ys' : list num.

(** The two data sets have the same knot and the same value at [j]. *)
Let same (j : nat) : Prop :=
  (xs.[j])%num = (xs'.[j])%num /\ (ys.[j])%num = (ys'.[j])%num.

Lemma diff_local (j : nat) :
  same j -> same (j + 1) -> diff xs ys j = diff xs' ys' j.
Proof.
  intros [Hx Hy] [Hx1 Hy1]. unfold diff. now rewrite Hx, Hy, Hx1, Hy1.
Qed.

Lemma weight_local (j : nat) :
  1 <= j -> same (j - 1) -> same j -> same (j + 1) ->
  weight xs ys j = weight xs' ys' j.
Proof.
  intros Hj H0 H1 H2. unfold weight.
  rewrite (diff_local j H1 H2).
  rewrite (diff_local (j - 1) H0); [reflexivity |].
  now replace (j - 1 + 1) with j by lia.
Qed.

Lemma interior_derivative_local (k : nat) :
  2 <= k ->
  same (k - 2) -> same (k - 1) -> same k -> same (k + 1) -> same (k + 2) ->
  interior_derivative xs ys k = interior_derivative xs' ys' k.
Proof.
  intros Hk H0 H1 H2 H3 H4. unfold interior_derivative. cbv zeta.
  rewrite (weight_local (k + 1)); [| lia | | assumption |].
  2: now replace (k + 1 - 1) with k by lia.
  2: now replace (k + 1 + 1) with (k + 2) by lia.
  rewrite (weight_local (k - 1)); [| lia | | assumption |].
  2: now replace (k - 1 - 1) with (k - 2) by lia.
  2: now replace (k - 1 + 1) with k by lia.
  rewrite (diff_local k H2 H3).
  rewrite (diff_local (k - 1) H1); [| now replace (k - 1 + 1) with k by lia].
  destruct H1 as [Hx1 _], H2 as [Hx2 _], H3 as [Hx3 _].
  now rewrite Hx1, Hx2, Hx3.
Qed.

Lemma differentiateThreePoint_local (i i0 i1 i2 : nat) :
  same i -> same i0 -> same i1 -> same i2 ->
  differentiateThreePoint xs ys i i0 i1 i2
  = differentiateThreePoint xs' ys' i i0 i1 i2.
Proof.
  intros [Hx _] [Hx0 Hy0] [Hx1 Hy1] [Hx2 Hy2]. unfold differentiateThreePoint.
  now rewrite Hx, Hx0, Hy0, Hx1, Hy1, Hx2, Hy2.
Qed.

Hypothesis five : 5 <= length xs.
Hypothesis same_length : length xs = length xs'.

(** The derivative at knot [k] is fixed by the data at the knots
    [k-2], ..., [k+2]. *)
Lemma firstDerivatives_of_local (k : nat) :
  k < length xs ->
  (forall j, k - 2 <= j <= k + 2 -> j < length xs -> same j) ->
  ((firstDerivatives_of xs ys).[k])%num = ((firstDerivatives_of xs' ys').[k])%num.
Proof.
  intros Hk Hsame.
  assert (five' : 5 <= length xs') by lia.
  destruct (firstDerivatives_of_boundary xs ys five) as (B0 & B1 & B2 & B3).
  destruct (firstDerivatives_of_boundary xs' ys' five') as (B0' & B1' & B2' & B3').
  rewrite <- same_length in B2', B3'.
  destruct (Nat.eq_dec k 0) as [-> | N0].
  { rewrite B0, B0'. apply differentiateThreePoint_local; apply Hsame; lia. }
  destruct (Nat.eq_dec k 1) as [-> | N1].
  { rewrite B1, B1'. apply differentiateThreePoint_local; apply Hsame; lia. }
  destruct (Nat.eq_dec k (length xs - 2)) as [-> | N2].
  { rewrite B2, B2'. apply differentiateThreePoint_local; apply Hsame; lia. }
  destruct (Nat.eq_dec k (length xs - 1)) as [-> | N3].
  { rewrite B3, B3'. apply differentiateThreePoint_local; apply Hsame; lia. }
  rewrite (firstDerivatives_of_interior xs ys five k) by lia.
  rewrite (firstDerivatives_of_interior xs' ys' five' k) by lia.
  apply interior_derivative_local; [lia | ..]; apply Hsame; lia.
Qed.
End Locality.

(** X11: the fit is local: when two data sets of one length are fitted and
    have the same knots and values at the indices [i-2], ..., [i+3] (those
    of them that exist), the two tables have the same row for segment [i],
    whatever the data are elsewhere. *)
Theorem segment_depends_on_six_points {num : Type} {N : Number num}
    (xs ys xs' ys' : list num) (t t' : table) (i : nat) :
  interpolate (Some xs) (Some ys) = Ok t ->
  interpolate (Some xs') (Some ys') = Ok t' ->
  length xs = length xs' ->
  i + 1 < length xs ->
  (forall j, i - 2 <= j <= i + 3 -> j < length xs ->
     (xs.[j] = xs'.[j] /\ ys.[j] = ys'.[j])%num) ->
  get None t i = get None t' i.
Proof.
  intros Ht Ht' Hlen Hi Hsame.
  destruct (interpolate_Ok_inv _ _ _ Ht) as (a & b & E1 & E2 & Hy & H5).
  injection E1 as <-. injection E2 as <-.
  destruct (interpolate_Ok_inv _ _ _ Ht') as (a & b & E1 & E2 & Hy' & H5').
  injection E1 as <-. injection E2 as <-.
  destruct (interpolate_spec xs ys Hy H5) as (u & Hu & _ & Hrow).
  rewrite Ht in Hu. injection Hu as <-.
  destruct (interpolate_spec xs' ys' Hy' H5') as (u & Hu & _ & Hrow').
  rewrite Ht' in Hu. injection Hu as <-.
  rewrite Hrow, Hrow' by lia. f_equal. unfold segment. cbv zeta.
  rewrite (firstDerivatives_of_local xs ys xs' ys' H5 Hlen i) by
    (try lia; intros j Hj Hjn; apply Hsame; lia).
  rewrite (firstDerivatives_of_local xs ys xs' ys' H5 Hlen (i + 1)) by
    (try lia; intros j Hj Hjn; apply Hsame; lia).
  destruct (Hsame i ltac:(lia) ltac:(lia)) as [Hx0 Hy0].
  destruct (Hsame (i + 1) ltac:(lia) ltac:(lia)) as [Hx1 Hy1].
  now rewrite Hx0, Hy0, Hx1, Hy1.
Qed.

Lemma segment_depends_on_six_points_witness :
  exists t t',
    interpolate (Some (floats golden_x)) (Some (floats golden_y)) = Ok t /\
    interpolate (Some (floats golden_x))
      (Some (floats [40; 10; 17; 39; 99; 120; 30; 1000]%Z)) = Ok t' /\
    get None t 3 = get None t' 3.
Proof.
  destruct (interpolate (Some (floats golden_x)) (Some (floats golden_y)))
    as [t | e] eqn:Ht; [| vm_compute in Ht; discriminate Ht].
  destruct (interpolate (Some (floats golden_x))
              (Some (floats [40; 10; 17; 39; 99; 120; 30; 1000]%Z)))
    as [t' | e] eqn:Ht'; [| vm_compute in Ht'; discriminate Ht'].
  exists t, t'. split; [reflexivity |]. split; [reflexivity |].
  apply (segment_depends_on_six_points (floats golden_x) (floats golden_y)
           (floats golden_x) (floats [40; 10; 17; 39; 99; 120; 30; 1000]%Z)
           t t' 3 Ht Ht').
  - reflexivity.
  - cbn. lia.
  - intros j Hj Hjn.
    do 7 (destruct j as [| j]; [split; reflexivity |]). lia.
Defined.

(** ** Data on a straight line, in exact arithmetic *)

Section Line.
Local Open Scope Q_scope.
Variables xs ys : list Q.
Variables m c : Q.
Hypothesis same_length : length xs = length ys.
Hypothesis five : (5 <= length xs)%nat.
Hypothesis sorted : strictly_increasing xs.
Hypothesis line :
  forall j, (j < length xs)%nat -> get NaN ys j == m * get NaN xs j + c.

Lemma knots_increase (i j : nat) :
  (i < j)%nat -> (j < length xs)%nat -> get NaN xs i < get NaN xs j.
Proof.
  intros Hij Hj. apply Q_lt_iff. now apply (sorted_lt xs sorted).
Qed.

Lemma diff_line (j : nat) : (j + 1 < length xs)%nat -> diff xs ys j == m.
Proof.
  intros Hj. unfold diff. to_Q.
  rewrite (line j), (line (j + 1)) by lia.
  pose proof (knots_increase j (j + 1) ltac:(lia) Hj). field. lra.
Qed.

Lemma weight_line (j : nat) :
  (1 <= j)%nat -> (j + 1 < length xs)%nat -> weight xs ys j == 0.
Proof.
  intros H1 Hj. unfold weight. to_Q.
  rewrite (diff_line j), (diff_line (j - 1)) by lia.
  setoid_replace (m - m) with 0 by ring. reflexivity.
Qed.

Lemma interior_derivative_line (k : nat) :
  (2 <= k)%nat -> (k + 3 <= length xs)%nat -> interior_derivative xs ys k == m.
Proof.
  intros H2 Hk. unfold interior_derivative. cbv zeta.
  assert (HP : ltb (abs (weight xs ys (k + 1))) EPSILON = true).
  { apply Q_lt_iff. to_Q. rewrite weight_line by lia. reflexivity. }
  assert (HM : ltb (abs (weight xs ys (k - 1))) EPSILON = true).
  { apply Q_lt_iff. to_Q. rewrite weight_line by lia. reflexivity. }
  rewrite HP, HM. cbn [andb]. to_Q.
  rewrite (diff_line k), (diff_line (k - 1)) by lia.
  pose proof (knots_increase (k - 1) (k + 1) ltac:(lia) ltac:(lia)).
  field. lra.
Qed.

Lemma differentiateThreePoint_line (i i0 : nat) :
  (i < length xs)%nat -> (i0 + 2 < length xs)%nat ->
  differentiateThreePoint xs ys i i0 (i0 + 1) (i0 + 2) == m.
Proof.
  intros Hi Hi0.
  pose proof (knots_increase i0 (i0 + 1) ltac:(lia) ltac:(lia)) as H01.
  pose proof (knots_increase i0 (i0 + 2) ltac:(lia) ltac:(lia)) as H02.
  pose proof (knots_increase (i0 + 1) (i0 + 2) ltac:(lia) ltac:(lia)) as H12.
  destruct (differentiateThreePoint_quadratic xs ys i i0 (i0 + 1) (i0 + 2))
    as (a & b & _ & _ & Hd & Huniq); try lra.
  destruct (Huniq 0 m) as [Ha Hb].
  - rewrite (line i0), (line (i0 + 1)) by lia. ring.
  - rewrite (line i0), (line (i0 + 2)) by lia. ring.
  - rewrite Hd, <- Ha, <- Hb. ring.
Qed.

Lemma firstDerivatives_of_line (k : nat) :
  (k < length xs)%nat -> get NaN (firstDerivatives_of xs ys) k == m.
Proof.
  intros Hk.
  destruct (firstDerivatives_of_boundary xs ys five) as (B0 & B1 & B2 & B3).
  destruct (Nat.eq_dec k 0) as [-> | N0].
  { rewrite B0. apply (differentiateThreePoint_line 0 0); lia. }
  destruct (Nat.eq_dec k 1) as [-> | N1].
  { rewrite B1. apply (differentiateThreePoint_line 1 0); lia. }
  destruct (Nat.eq_dec k (length xs - 2)) as [-> | N2].
  { rewrite B2.
    replace (length xs - 2)%nat with (length xs - 3 + 1)%nat by lia.
    replace (length xs - 1)%nat with (length xs - 3 + 2)%nat by lia.
    apply differentiateThreePoint_line; lia. }
  destruct (Nat.eq_dec k (length xs - 1)) as [-> | N3].
  { rewrite B3.
    replace (length xs - 2)%nat with (length xs - 3 + 1)%nat by lia.
    replace (length xs - 1)%nat with (length xs - 3 + 2)%nat at 2 by lia.
    apply differentiateThreePoint_line; lia. }
  rewrite (firstDerivatives_of_interior xs ys five k) by lia.
  apply interior_derivative_line; lia.
Qed.

Lemma segment_line (k : nat) (x : Q) :
  (k + 1 < length xs)%nat ->
  segment_value (segment xs ys (firstDerivatives_of xs ys) k) (get NaN xs k) x
  == m * x + c.
Proof.
  intros Hk. unfold segment_value, segment, evaluatePolynomial.
  cbn [rev app fold_left]. to_Q.
  rewrite (firstDerivatives_of_line k), (firstDerivatives_of_line (k + 1)) by lia.
  rewrite (line k), (line (k + 1)) by lia.
  pose proof (knots_increase k (k + 1) ltac:(lia) Hk). field. lra.
Qed.
End Line.

(** X12: in exact arithmetic, when the values lie on a straight line
    [y = m*x + c] over five or more strictly increasing knots, the fitted
    function is that line: it returns [m*x + c] for every query [x], between
    the knots and outside them. *)
Theorem line_is_reproduced (xs ys : list Q) (m c : Q) :
  length xs = length ys -> 5 <= length xs ->
  (Z.of_nat (length xs) <= 2 ^ 31)%Z ->
  strictly_increasing xs ->
  (forall j, j < length xs -> (ys.[j]%num == m * xs.[j]%num + c)%Q) ->
  exists f, createInterpolator (Some xs) (Some ys) = Ok f /\
    forall x, exists v, f x = Ok v /\ (v == m * x + c)%Q.
Proof.
  intros Hy H5 Hsmall Hs Hline.
  destruct (createInterpolator_spec xs ys Hy H5) as (t & Ht & Hf).
  eexists. split; [exact Hf |]. intros x.
  destruct (selects_total xs Hsmall ltac:(lia) Hs x (Q_is_number x)) as [k Hsel].
  destruct (fitted_selects xs ys _ Hf Hsmall x k Hs Hsel) as [Hk Hfx].
  eexists. split; [exact Hfx |].
  apply segment_line; try assumption. lia.
Qed.

Lemma line_is_reproduced_witness :
  exists f, createInterpolator (Some (rationals golden_x))
              (Some (rationals [23; 43; 63; 83; 103; 123; 143; 163]%Z)) = Ok f /\
    forall x, exists v, f x = Ok v /\ (v == 2 * x + 3)%Q.
Proof.
  apply (line_is_reproduced (rationals golden_x)
           (rationals [23; 43; 63; 83; 103; 123; 143; 163]%Z) 2 3).
  - reflexivity.
  - cbn. lia.
  - vm_compute. discriminate.
  - exact golden_x_increasing_Q.
  - intros j Hj. cbn in Hj.
    do 8 (destruct j as [| j]; [vm_compute; reflexivity |]). lia.
Defined.

(** ** Three-point differentiation on equally spaced samples *)

(** X13: in exact arithmetic, on three samples spaced by [h] (not zero),
    [differentiateThreePoint] gives the classical finite differences:
    [(-3*y0 + 4*y1 - y2) / (2*h)] at the first sample, the central
    difference [(y2 - y0) / (2*h)] at the middle one, and
    [(y0 - 4*y1 + 3*y2) / (2*h)] at the last. *)
Theorem three_point_finite_differences (xs ys : list Q) (i0 i1 i2 : nat)
    (h : Q) :
  length xs = length ys ->
  i0 < length xs -> i1 < length xs -> i2 < length xs ->
  ~ (h == 0)%Q ->
  (xs.[i1]%num - xs.[i0]%num == h)%Q ->
  (xs.[i2]%num - xs.[i1]%num == h)%Q ->
  let y0 := ys.[i0]%num in
  let y1 := ys.[i1]%num in
  let y2 := ys.[i2]%num in
  (differentiateThreePoint xs ys i0 i0 i1 i2
   == (- (3) * y0 + 4 * y1 - y2) / (2 * h))%Q /\
  (differentiateThreePoint xs ys i1 i0 i1 i2 == (y2 - y0) / (2 * h))%Q /\
  (differentiateThreePoint xs ys i2 i0 i1 i2
   == (y0 - 4 * y1 + 3 * y2) / (2 * h))%Q.
Proof.
  intros _ _ _ _ Hh H1 H2. cbv zeta.
  assert (H02 : (get NaN xs i2 - get NaN xs i0 == 2 * h)%Q) by lra.
  assert (H00 : (get NaN xs i0 - get NaN xs i0 == 0)%Q) by ring.
  pose (a' := ((get NaN ys i2 - 2 * get NaN ys i1 + get NaN ys i0)
               / (2 * h * h))%Q).
  pose (b' := ((4 * get NaN ys i1 - 3 * get NaN ys i0 - get NaN ys i2)
               / (2 * h))%Q).
  assert (Hq : forall i,
    (differentiateThreePoint xs ys i i0 i1 i2
     == 2 * a' * (get NaN xs i - get NaN xs i0) + b')%Q).
  { intros i.
    destruct (differentiateThreePoint_quadratic xs ys i i0 i1 i2)
      as (a & b & _ & _ & Hd & Huniq); try lra.
    destruct (Huniq a' b') as [Ha Hb].
    - rewrite H1. unfold a', b'. field. assumption.
    - rewrite H02. unfold a', b'. field. assumption.
    - now rewrite Hd, <- Ha, <- Hb. }
  split; [| split].
  - rewrite Hq, H00. unfold a', b'. field. assumption.
  - rewrite Hq, H1. unfold a', b'. field. assumption.
  - rewrite Hq, H02. unfold a', b'. field. assumption.
Qed.

Lemma three_point_finite_differences_witness :
  (differentiateThreePoint (rationals golden_x) (rationals golden_y) 1 0 1 2
   == (17 - 40) / (2 * 10))%Q.
Proof.
  apply (three_point_finite_differences (rationals golden_x)
           (rationals golden_y) 0 1 2 10);
    try reflexivity; try (cbn; lia).
  intros H. vm_compute in H. discriminate H.
Defined.

(** ** The interior derivative lies between the adjacent slopes *)

Section Between.
Local Open Scope Q_scope.

(** A weighted average with weights that are not negative and not both zero
    lies between the two values. *)
Lemma average_between (a b s p q : Q) :
  0 <= a -> 0 <= b -> 0 < s -> s == a + b -> p <= q ->
  p <= (a * p + b * q) / s /\ (a * p + b * q) / s <= q.
Proof.
  intros Ha Hb Hs Es Hpq. split.
  - apply Qle_shift_div_l; [assumption |]. rewrite Es. nra.
  - apply Qle_shift_div_r; [assumption |]. rewrite Es. nra.
Qed.

Variables xs ys : list Q.
Variable k : nat.
Hypothesis five : (5 <= length xs)%nat.
Hypothesis sorted : strictly_increasing xs.
Hypothesis interior : (2 <= k)%nat /\ (k + 3 <= length xs)%nat.

Lemma interior_derivative_average :
  exists a b s : Q,
    0 <= a /\ 0 <= b /\ 0 < s /\ s == a + b /\
    interior_derivative xs ys k
    == (a * diff xs ys (k - 1) + b * diff xs ys k) / s.
Proof.
  unfold interior_derivative. cbv zeta.
  destruct (ltb (abs (weight xs ys (k + 1))) EPSILON
            && ltb (abs (weight xs ys (k - 1))) EPSILON) eqn:E.
  - pose proof (knots_increase xs sorted (k - 1) k ltac:(lia) ltac:(lia)) as H1.
    pose proof (knots_increase xs sorted k (k + 1) ltac:(lia) ltac:(lia)) as H2.
    exists (get NaN xs (k + 1) - get NaN xs k),
           (get NaN xs k - get NaN xs (k - 1)),
           (get NaN xs (k + 1) - get NaN xs (k - 1)).
    to_Q. split; [lra |]. split; [lra |]. split; [lra |].
    split; [ring | reflexivity].
  - exists (weight xs ys (k + 1)), (weight xs ys (k - 1)),
           (weight xs ys (k + 1) + weight xs ys (k - 1)).
    assert (HP : 0 <= weight xs ys (k + 1)) by apply Qabs_nonneg.
    assert (HM : 0 <= weight xs ys (k - 1)) by apply Qabs_nonneg.
    assert (Heps : 0 < EPSILON) by reflexivity.
    apply andb_false_iff in E.
    assert (Hbig : EPSILON <= weight xs ys (k + 1)
                   \/ EPSILON <= weight xs ys (k - 1)).
    { destruct E as [E | E]; apply Q_lt_false_iff in E; to_Q;
        rewrite Qabs_pos in E by assumption; auto. }
    to_Q. split; [assumption |]. split; [assumption |].
    split; [destruct Hbig; lra |]. split; reflexivity.
Qed.
End Between.

(** X14: in exact arithmetic, in a fit of strictly increasing knots, the
    derivative at an interior knot lies between the slopes of the two
    segments that meet there. *)
Theorem interior_derivative_between_slopes (xs ys : list Q) (t : table)
    (k : nat) :
  interpolate (Some xs) (Some ys) = Ok t ->
  strictly_increasing xs ->
  2 <= k -> k + 3 <= length xs ->
  let d := (firstDerivatives_of xs ys).[k]%num in
  let before := diff xs ys (k - 1) in
  let after := diff xs ys k in
  ((before <= after -> before <= d /\ d <= after) /\
   (after <= before -> after <= d /\ d <= before))%Q.
Proof.
  intros Ht Hs H2 Hk. cbv zeta.
  destruct (interpolate_Ok_inv _ _ _ Ht) as (a & b & E1 & E2 & Hy & H5).
  injection E1 as <-. injection E2 as <-.
  rewrite (firstDerivatives_of_interior xs ys H5 k) by lia.
  destruct (interior_derivative_average xs ys k H5 Hs (conj H2 Hk))
    as (a & b & s & Ha & Hb & Hs' & Es & ->).
  split; intros Hle.
  - now apply average_between.
  - assert (Es' : (s == b + a)%Q) by (rewrite Es; ring).
    destruct (average_between b a s _ _ Hb Ha Hs' Es' Hle) as [L U].
    setoid_replace (a * diff xs ys (k - 1) + b * diff xs ys k)%Q
      with (b * diff xs ys k + a * diff xs ys (k - 1))%Q by ring.
    now split.
Qed.

Lemma interior_derivative_between_slopes_witness :
  (7 # 10 <= (firstDerivatives_of (rationals golden_x)
                (rationals golden_y)).[2]%num /\
   (firstDerivatives_of (rationals golden_x) (rationals golden_y)).[2]%num
   <= 22 # 10)%Q.
Proof.
  destruct (interpolate (Some (rationals golden_x)) (Some (rationals golden_y)))
    as [t | e] eqn:Ht; [| vm_compute in Ht; discriminate Ht].
  destruct (interior_derivative_between_slopes (rationals golden_x)
              (rationals golden_y) t 2 Ht golden_x_increasing_Q)
    as [H _]; [lia | cbn; lia |].
  cbv zeta in H. apply H. vm_compute. discriminate.
Defined.

(** ** The evaluator on any table *)

(** X15: [evaluatePolynomialSegment] passes on the exception of the
    search; when the search returns, the index it computes is always one of
    the table, so that with a table without holes it evaluates one of the
    rows, whatever the lengths of the knots and of the table are; only with
    an empty table does it raise a [TypeError]. *)
Theorem evaluatePolynomialSegment_stays_in_table {num : Type}
    {N : Number num} (xs : list num) (t : table) (x : num) :
  (forall e, binarySearch xs x = Throw e ->
     evaluatePolynomialSegment xs t x = Throw e) /\
  (forall m, binarySearch xs x = Ok m ->
     (t = [] -> evaluatePolynomialSegment xs t x = Throw TypeError) /\
     (t <> [] ->
      (forall i, i < length t -> get None t i <> None) ->
      exists k c, k < length t /\ get None t k = Some c /\
        evaluatePolynomialSegment xs t x
        = Ok (evaluatePolynomial c (x - xs.[k])%num))).
Proof.
  split.
  - intros e He. unfold evaluatePolynomialSegment. now rewrite He.
  - intros m Hm. unfold evaluatePolynomialSegment. rewrite Hm. cbn [bind].
    split.
    + intros ->. unfold get. now rewrite nth_overflow by (cbn; lia).
    + intros Hne Hrows.
      assert (Hlen : 0 < length t) by (destruct t; [contradiction | cbn; lia]).
      set (k := Z.to_nat (Z.max 0 (Z.min (if (m <? 0)%Z then (- m - 2)%Z else m)
                                     (Z.of_nat (length t) - 1)))).
      assert (Hk : k < length t) by (subst k; lia).
      destruct (get None t k) as [c |] eqn:Hc.
      * exists k, c. repeat split; assumption.
      * exfalso. exact (Hrows k Hk Hc).
Qed.

Lemma evaluatePolynomialSegment_stays_in_table_witness :
  exists k c, k < 1 /\
    get None [Some (floats [1; 2]%Z)] k = Some c /\
    evaluatePolynomialSegment (floats golden_x) [Some (floats [1; 2]%Z)] 55%float
    = Ok (evaluatePolynomial c (55%float - (floats golden_x).[k])%num).
Proof.
  destruct (binarySearch (floats golden_x) 55%float) as [m | e] eqn:Hm;
    [| vm_compute in Hm; discriminate Hm].
  apply (proj2 (proj2 (evaluatePolynomialSegment_stays_in_table
                         (floats golden_x) [Some (floats [1; 2]%Z)] 55%float)
                  m Hm)).
  - discriminate.
  - intros [| i] Hi; [discriminate | cbn in Hi; lia].
Defined.

(** ** Adding a straight line to the data, in exact arithmetic *)

Section Superposition.
Local Open Scope Q_scope.
Variables xs ys ys' : list Q.
Variables m c : Q.
Hypothesis five : (5 <= length xs)%nat.
Hypothesis sorted : strictly_increasing xs.
Hypothesis shifted :
  forall j, (j < length xs)%nat ->
    get NaN ys' j == get NaN ys j + (m * get NaN xs j + c).

Lemma diff_shifted (j : nat) :
  (j + 1 < length xs)%nat -> diff xs ys' j == diff xs ys j + m.
Proof.
  intros Hj. unfold diff. to_Q.
  rewrite (shifted j), (shifted (j + 1)) by lia.
  pose proof (knots_increase xs sorted j (j + 1) ltac:(lia) Hj). field. lra.
Qed.

Lemma weight_shifted (j : nat) :
  (1 <= j)%nat -> (j + 1 < length xs)%nat ->
  weight xs ys' j == weight xs ys j.
Proof.
  intros H1 Hj. unfold weight. to_Q.
  rewrite (diff_shifted j), (diff_shifted (j - 1)) by lia.
  apply Qabs_wd. ring.
Qed.

Lemma interior_derivative_shifted (k : nat) :
  (2 <= k)%nat -> (k + 3 <= length xs)%nat ->
  interior_derivative xs ys' k == interior_derivative xs ys k + m.
Proof.
  intros H2 Hk. unfold interior_derivative. cbv zeta.
  assert (EP : ltb (abs (weight xs ys' (k + 1))) EPSILON
               = ltb (abs (weight xs ys (k + 1))) EPSILON).
  { apply eq_true_iff_eq. rewrite !Q_lt_iff. to_Q.
    now rewrite weight_shifted by lia. }
  assert (EM : ltb (abs (weight xs ys' (k - 1))) EPSILON
               = ltb (abs (weight xs ys (k - 1))) EPSILON).
  { apply eq_true_iff_eq. rewrite !Q_lt_iff. to_Q.
    now rewrite weight_shifted by lia. }
  rewrite EP, EM.
  destruct (ltb (abs (weight xs ys (k + 1))) EPSILON
            && ltb (abs (weight xs ys (k - 1))) EPSILON) eqn:E.
  - to_Q. rewrite (diff_shifted k), (diff_shifted (k - 1)) by lia.
    pose proof (knots_increase xs sorted (k - 1) (k + 1) ltac:(lia) ltac:(lia)).
    field. lra.
  - assert (HP : 0 <= weight xs ys (k + 1)) by apply Qabs_nonneg.
    assert (HM : 0 <= weight xs ys (k - 1)) by apply Qabs_nonneg.
    assert (Heps : 0 < EPSILON) by reflexivity.
    apply andb_false_iff in E.
    assert (Hbig : EPSILON <= weight xs ys (k + 1)
                   \/ EPSILON <= weight xs ys (k - 1)).
    { destruct E as [E | E]; apply Q_lt_false_iff in E; to_Q;
        rewrite Qabs_pos in E by assumption; auto. }
    to_Q. rewrite (weight_shifted (k + 1)), (weight_shifted (k - 1)) by lia.
    rewrite (diff_shifted k), (diff_shifted (k - 1)) by lia.
    field. destruct Hbig; lra.
Qed.

Lemma differentiateThreePoint_shifted (i i0 : nat) :
  (i < length xs)%nat -> (i0 + 2 < length xs)%nat ->
  differentiateThreePoint xs ys' i i0 (i0 + 1) (i0 + 2)
  == differentiateThreePoint xs ys i i0 (i0 + 1) (i0 + 2) + m.
Proof.
  intros Hi Hi0.
  pose proof (knots_increase xs sorted i0 (i0 + 1) ltac:(lia) ltac:(lia)) as H01.
  pose proof (knots_increase xs sorted i0 (i0 + 2) ltac:(lia) ltac:(lia)) as H02.
  pose proof (knots_increase xs sorted (i0 + 1) (i0 + 2) ltac:(lia) ltac:(lia))
    as H12.
  destruct (differentiateThreePoint_quadratic xs ys i i0 (i0 + 1) (i0 + 2))
    as (a & b & Q1 & Q2 & Hd & _); try lra.
  destruct (differentiateThreePoint_quadratic xs ys' i i0 (i0 + 1) (i0 + 2))
    as (a' & b' & _ & _ & Hd' & Huniq); try lra.
  destruct (Huniq a (b + m)) as [Ha Hb].
  - rewrite (shifted i0), (shifted (i0 + 1)), Q1 by lia. ring.
  - rewrite (shifted i0), (shifted (i0 + 2)), Q2 by lia. ring.
  - rewrite Hd, Hd', <- Ha, <- Hb. ring.
Qed.

Lemma firstDerivatives_of_shifted (k : nat) :
  length xs = length ys -> length xs = length ys' ->
  (k < length xs)%nat ->
  get NaN (firstDerivatives_of xs ys') k
  == get NaN (firstDerivatives_of xs ys) k + m.
Proof.
  intros Hy Hy' Hk.
  destruct (firstDerivatives_of_boundary xs ys five) as (B0 & B1 & B2 & B3).
  destruct (firstDerivatives_of_boundary xs ys' five) as (B0' & B1' & B2' & B3').
  destruct (Nat.eq_dec k 0) as [-> | N0].
  { rewrite B0, B0'. apply (differentiateThreePoint_shifted 0 0); lia. }
  destruct (Nat.eq_dec k 1) as [-> | N1].
  { rewrite B1, B1'. apply (differentiateThreePoint_shifted 1 0); lia. }
  destruct (Nat.eq_dec k (length xs - 2)) as [-> | N2].
  { rewrite B2, B2'.
    replace (length xs - 2)%nat with (length xs - 3 + 1)%nat by lia.
    replace (length xs - 1)%nat with (length xs - 3 + 2)%nat by lia.
    apply differentiateThreePoint_shifted; lia. }
  destruct (Nat.eq_dec k (length xs - 1)) as [-> | N3].
  { rewrite B3, B3'.
    replace (length xs - 2)%nat with (length xs - 3 + 1)%nat by lia.
    replace (length xs - 1)%nat with (length xs - 3 + 2)%nat at 2 4 by lia.
    apply differentiateThreePoint_shifted; lia. }
  rewrite (firstDerivatives_of_interior xs ys five k) by lia.
  rewrite (firstDerivatives_of_interior xs ys' five k) by lia.
  apply interior_derivative_shifted; lia.
Qed.

Lemma segment_shifted (k : nat) (x : Q) :
  length xs = length ys -> length xs = length ys' ->
  (k + 1 < length xs)%nat ->
  segment_value (segment xs ys' (firstDerivatives_of xs ys') k) (get NaN xs k) x
  == segment_value (segment xs ys (firstDerivatives_of xs ys) k) (get NaN xs k) x
     + (m * x + c).
Proof.
  intros Hy Hy' Hk. unfold segment_value, segment, evaluatePolynomial.
  cbn [rev app fold_left]. to_Q.
  rewrite (firstDerivatives_of_shifted k), (firstDerivatives_of_shifted (k + 1))
    by (assumption || lia).
  rewrite (shifted k), (shifted (k + 1)) by lia.
  pose proof (knots_increase xs sorted k (k + 1) ltac:(lia) Hk). field. lra.
Qed.
End Superposition.

(** X16: in exact arithmetic the fit commutes with adding a straight line:
    when the values [ys'] are the values [ys] plus [m*x + c] at every one of
    five or more strictly increasing knots, the function fitted on [ys']
    returns, for every query [x], what the function fitted on [ys] returns
    plus [m*x + c]. *)
Theorem fit_commutes_with_adding_a_line (xs ys ys' : list Q) (m c : Q) :
  length xs = length ys -> length xs = length ys' -> 5 <= length xs ->
  (Z.of_nat (length xs) <= 2 ^ 31)%Z ->
  strictly_increasing xs ->
  (forall j, j < length xs ->
     (ys'.[j]%num == ys.[j]%num + (m * xs.[j]%num + c))%Q) ->
  exists f f',
    createInterpolator (Some xs) (Some ys) = Ok f /\
    createInterpolator (Some xs) (Some ys') = Ok f' /\
    forall x, exists v v',
      f x = Ok v /\ f' x = Ok v' /\ (v' == v + (m * x + c))%Q.
Proof.
  intros Hy Hy' H5 Hsmall Hs Hshift.
  destruct (createInterpolator_spec xs ys Hy H5) as (t & Ht & Hf).
  destruct (createInterpolator_spec xs ys' Hy' H5) as (t' & Ht' & Hf').
  eexists. eexists. split; [exact Hf |]. split; [exact Hf' |]. intros x.
  destruct (selects_total xs Hsmall ltac:(lia) Hs x (Q_is_number x)) as [k Hsel].
  destruct (fitted_selects xs ys _ Hf Hsmall x k Hs Hsel) as [Hk Hfx].
  destruct (fitted_selects xs ys' _ Hf' Hsmall x k Hs Hsel) as [_ Hfx'].
  eexists. eexists. split; [exact Hfx |]. split; [exact Hfx' |].
  apply segment_shifted; try assumption. lia.
Qed.

Lemma fit_commutes_with_adding_a_line_witness :
  exists f f',
    createInterpolator (Some (rationals golden_x)) (Some (rationals golden_y))
    = Ok f /\
    createInterpolator (Some (rationals golden_x))
      (Some (rationals [63; 53; 80; 122; 202; 243; 173; 173]%Z)) = Ok f' /\
    forall x, exists v v',
      f x = Ok v /\ f' x = Ok v' /\ (v' == v + (2 * x + 3))%Q.
Proof.
  apply (fit_commutes_with_adding_a_line (rationals golden_x)
           (rationals golden_y)
           (rationals [63; 53; 80; 122; 202; 243; 173; 173]%Z) 2 3).
  - reflexivity.
  - reflexivity.
  - cbn. lia.
  - vm_compute. discriminate.
  - exact golden_x_increasing_Q.
  - intros j Hj. cbn in Hj.
    do 8 (destruct j as [| j]; [vm_compute; reflexivity |]). lia.
Defined.
